(** * Camogie team optimizer: CSV roster parsing, team splitting and the
      MiniZinc solver service, embedded from the TypeScript sources.

    Sources embedded here:
    - [src/shared/constants.ts]  (POSITIONS, SOLVERS)
    - [src/shared/utils.ts]      (parseCSV, splitIntoTeams, calculateTotalRating,
                                  countPositions, sortPlayersByPosition,
                                  formatPlayer)
    - [src/solver/service.ts]    (MiniZincService: init, isSolverAvailable,
                                  solve, getAvailableSolvers)
    - [src/cli/commands.ts]      (parseArgs)

    [service.ts] is embedded in its current form, the one whose [solve]
    takes a model file name.

    Conventions of the embedding.
    - A JavaScript string is a [string]: a list of code units below 256.
    - A JavaScript integer number is a [Z], exact at every size (no rounding
      to double precision); [NaN] is the [None] of an [option Z];
      [undefined] read from an array or object is [None] or [JUndefined].
      The code's numbers are double-precision: they agree with these
      integers up to magnitude 2^53, and the properties that depend on the
      value of a sum, of a parsed number or of a printed number carry that
      bound as a hypothesis.
    - A thrown exception is the left summand of a sum type.
    - An awaited promise is the value it resolves to, or the exception it
      rejects with. *)

From Stdlib Require Import ZArith List String Ascii Bool Lia DecimalString DecimalZ
  Permutation Sorted.
Import ListNotations.

Open Scope string_scope.
Open Scope Z_scope.

(* ================================================================== *)
(** ** JavaScript string primitives used by the sources *)

Module JsString.

(** Code units that [String.prototype.trim] and [parseInt] treat as white
    space, among the code units below 256. *)
Definition is_ws (c : ascii) : bool :=
  let n := nat_of_ascii c in
  (Nat.leb 9 n && Nat.leb n 13) || Nat.eqb n 32 || Nat.eqb n 160.

Fixpoint trimStart (s : string) : string :=
  match s with
  | EmptyString => EmptyString
  | String c r => if is_ws c then trimStart r else s
  end.

Fixpoint all_ws (s : string) : bool :=
  match s with
  | EmptyString => true
  | String c r => is_ws c && all_ws r
  end.

Fixpoint trimEnd (s : string) : string :=
  match s with
  | EmptyString => EmptyString
  | String c r => if all_ws s then EmptyString else String c (trimEnd r)
  end.

Definition trim (s : string) : string := trimEnd (trimStart s).

(** [s.split(sep)] for a one-character separator: never the empty list. *)
Fixpoint split (sep : ascii) (s : string) : list string :=
  match s with
  | EmptyString => [EmptyString]
  | String c r =>
      if Ascii.eqb c sep then EmptyString :: split sep r
      else match split sep r with
           | [] => [String c EmptyString]
           | w :: ws => String c w :: ws
           end
  end.

(** [toLowerCase] on code units below 256: A-Z, and the Latin-1 capitals
    192-222 except the multiplication sign 215. *)
Definition lower_char (c : ascii) : ascii :=
  let n := nat_of_ascii c in
  if (Nat.leb 65 n && Nat.leb n 90)
     || (Nat.leb 192 n && Nat.leb n 222 && negb (Nat.eqb n 215))
  then ascii_of_nat (n + 32) else c.

Fixpoint toLowerCase (s : string) : string :=
  match s with
  | EmptyString => EmptyString
  | String c r => String (lower_char c) (toLowerCase r)
  end.

(** [arr.indexOf(x)]: the first index holding [x], or -1. *)
Fixpoint indexOf_from (i : Z) (l : list string) (x : string) : Z :=
  match l with
  | [] => -1
  | y :: r => if String.eqb y x then i else indexOf_from (i + 1) r x
  end.

Definition indexOf (l : list string) (x : string) : Z := indexOf_from 0 l x.

(** [arr[i]]: [None] is JavaScript's [undefined] (index out of range). *)
Definition at_index {A : Type} (l : list A) (i : Z) : option A :=
  if i <? 0 then None else nth_error l (Z.to_nat i).

Definition digit_val (c : ascii) : option Z :=
  let n := nat_of_ascii c in
  if Nat.leb 48 n && Nat.leb n 57 then Some (Z.of_nat (n - 48)) else None.

(** The longest prefix of decimal digits, read left to right. *)
Fixpoint digits_prefix (acc : option Z) (s : string) : option Z :=
  match s with
  | EmptyString => acc
  | String c r =>
      match digit_val c with
      | Some d =>
          digits_prefix (Some (10 * match acc with Some a => a | None => 0 end + d)) r
      | None => acc
      end
  end.

(** [parseInt(s, 10)] on a string: leading white space is skipped, one
    sign is accepted, digits are read up to the first other character;
    [None] is [NaN]. *)
Definition parseInt_string (s : string) : option Z :=
  match trimStart s with
  | String "-" r => option_map Z.opp (digits_prefix None r)
  | String "+" r => digits_prefix None r
  | r => digits_prefix None r
  end.

(** [parseInt(x, 10)] where [x] may be [undefined]: the argument is first
    converted to the string "undefined", which has no digits. *)
Definition parseInt (x : option string) : option Z :=
  match x with
  | Some s => parseInt_string s
  | None => parseInt_string "undefined"
  end.

(** Decimal rendering of a number inside a template literal. *)
Definition of_Z (n : Z) : string := NilEmpty.string_of_int (Z.to_int n).

Definition nl : string := String (ascii_of_nat 10) EmptyString.
Definition dquote : string := String (ascii_of_nat 34) EmptyString.

Definition is_empty (s : string) : bool :=
  match s with EmptyString => true | _ => false end.

End JsString.

Import JsString.

(* ================================================================== *)
(** ** [src/shared/constants.ts] *)

Module Constants.

Record PositionConfig := mkPositionConfig
  { index : Z; name : string; sortOrder : Z }.

(** The object literal [POSITIONS], as its list of own properties. *)
Definition POSITIONS : list (string * PositionConfig) :=
  [ ("forward",  mkPositionConfig 1 "forward" 3);
    ("midfield", mkPositionConfig 2 "midfield" 2);
    ("defense",  mkPositionConfig 3 "defense" 1);
    ("unknown",  mkPositionConfig 0 "unknown" 99) ].

Definition POSITIONS_unknown : PositionConfig := mkPositionConfig 0 "unknown" 99.

Fixpoint own_property {A : Type} (o : list (string * A)) (k : string) : option A :=
  match o with
  | [] => None
  | (k', v) :: r => if String.eqb k' k then Some v else own_property r k
  end.

(** [POSITIONS] is a plain object, so the property read [POSITIONS[k]] also
    finds what every object inherits from [Object.prototype]. Those
    inherited members are functions (or, for [__proto__], the prototype
    object): truthy values without an [index] property. *)
Definition Object_prototype_keys : list string :=
  [ "constructor"; "__defineGetter__"; "__defineSetter__"; "hasOwnProperty";
    "__lookupGetter__"; "__lookupSetter__"; "isPrototypeOf";
    "propertyIsEnumerable"; "toString"; "valueOf"; "__proto__";
    "toLocaleString" ].

Definition inherited_property (k : string) : bool :=
  existsb (String.eqb k) Object_prototype_keys.

(** The object literal [SOLVERS]. *)
Definition SOLVERS_local : list string := ["cbc"; "coinbc"; "cp-sat"; "chuffed"].
Definition SOLVERS_wasm : list string := ["gecode"; "chuffed"; "cbc"].

Definition DEFAULT_SOLVER : string := "cbc".
Definition DEFAULT_TIME_LIMIT : Z := 10000.
Definition RATING_WEIGHT : Z := 10.

End Constants.

(* ================================================================== *)
(** ** [src/shared/utils.ts] *)

Module Utils.
Import Constants.

Record Player := mkPlayer
  { name : string; rating : Z; position : string }.

(** [ModelData & { players: Player[] }]. An entry of [position_indices] is
    a number or, as [None], JavaScript's [undefined]. *)
Record ModelData := mkModelData
  { num_players : Z;
    players : list Player;
    ratings : list Z;
    positions : list string;
    position_indices : list (option Z) }.

(** [(POSITIONS[position] || POSITIONS.unknown).index] *)
Definition position_index (position : string) : option Z :=
  match own_property POSITIONS position with
  | Some cfg => Some (index cfg)
  | None =>
      if inherited_property position then None
      else Some (index POSITIONS_unknown)
  end.

(** [x?.trim()] *)
Definition opt_trim (x : option string) : option string := option_map trim x.

(** [x || d] for an optional string [x]: [undefined] and the empty string
    are falsy. *)
Definition or_default (x : option string) (d : string) : string :=
  match x with
  | Some s => if is_empty s then d else s
  | None => d
  end.

(** The four arrays that the loop of [parseCSV] fills in step. *)
Record Arrays := mkArrays
  { a_players : list Player;
    a_ratings : list Z;
    a_positions : list string;
    a_positionIndices : list (option Z) }.

Definition no_arrays : Arrays := mkArrays [] [] [] [].

(** [arr.push(x)] *)
Definition push {A : Type} (l : list A) (x : A) : list A := l ++ [x].

(** One iteration of the [for] loop of [parseCSV], at index [i] on the raw
    line [raw]. *)
Definition parseCSV_row (nameIdx ratingIdx positionIdx : Z)
           (i : Z) (raw : string) (acc : Arrays) : Arrays :=
  let line := trim raw in
  if is_empty line then acc
  else
    let values := split "," line in
    if 2 <=? Z.of_nat (List.length values) then
      let name := or_default (opt_trim (at_index values nameIdx))
                             ("Player " ++ of_Z i) in
      let rating := parseInt (opt_trim (at_index values ratingIdx)) in
      let positionRaw :=
        if negb (positionIdx =? -1)
        then option_map toLowerCase (opt_trim (at_index values positionIdx))
        else Some "unknown" in
      let position := or_default positionRaw "unknown" in
      match rating with
      | Some r =>
          mkArrays (push (a_players acc) (mkPlayer name r position))
                   (push (a_ratings acc) r)
                   (push (a_positions acc) position)
                   (push (a_positionIndices acc) (position_index position))
      | None => acc
      end
    else acc.

(** [for (let i = 1; i < lines.length; i++)], entered at index [i] with
    the lines from [i] on. *)
Fixpoint parseCSV_loop (nameIdx ratingIdx positionIdx : Z)
         (i : Z) (rest : list string) (acc : Arrays) : Arrays :=
  match rest with
  | [] => acc
  | raw :: rest' =>
      parseCSV_loop nameIdx ratingIdx positionIdx (i + 1) rest'
                    (parseCSV_row nameIdx ratingIdx positionIdx i raw acc)
  end.

Definition err_too_short : string :=
  "CSV must have at least a header and one data row".
Definition err_columns : string :=
  "CSV must contain " ++ dquote ++ "name" ++ dquote ++ " and "
    ++ dquote ++ "rating" ++ dquote ++ " columns".
Definition err_no_players : string := "No valid player data found in CSV".

(** [parseCSV]: [inl msg] is [throw new Error(msg)]. *)
Definition parseCSV (csvText : string) : string + ModelData :=
  let lines := split (ascii_of_nat 10) (trim csvText) in
  match lines with
  | [] | [_] => inl err_too_short
  | header :: rows =>
      let headers := map (fun h => toLowerCase (trim h)) (split "," header) in
      let nameIdx := indexOf headers "name" in
      let ratingIdx := indexOf headers "rating" in
      let positionIdx := indexOf headers "position" in
      if (nameIdx =? -1) || (ratingIdx =? -1) then inl err_columns
      else
        let acc := parseCSV_loop nameIdx ratingIdx positionIdx 1 rows no_arrays in
        if Nat.eqb (List.length (a_players acc)) 0 then inl err_no_players
        else inr (mkModelData (Z.of_nat (List.length (a_players acc)))
                              (a_players acc) (a_ratings acc)
                              (a_positions acc) (a_positionIndices acc))
  end.

(** [assignment.forEach((team, idx) => ...)] of [splitIntoTeams], entered
    at index [idx] with the entries from [idx] on; [teamA] and [teamB] are
    the arrays being filled. Under the guard [idx < players.length] the read
    [players[idx]] always finds a player, so its [None] case is never
    taken. *)
Fixpoint splitIntoTeams_loop (players : list Player) (idx : Z)
         (rest : list Z) (teamA teamB : list Player)
  : list Player * list Player :=
  match rest with
  | [] => (teamA, teamB)
  | team :: rest' =>
      if idx <? Z.of_nat (List.length players) then
        match at_index players idx with
        | Some p =>
            if team =? 0
            then splitIntoTeams_loop players (idx + 1) rest' (push teamA p) teamB
            else splitIntoTeams_loop players (idx + 1) rest' teamA (push teamB p)
        | None => splitIntoTeams_loop players (idx + 1) rest' teamA teamB
        end
      else splitIntoTeams_loop players (idx + 1) rest' teamA teamB
  end.

Definition splitIntoTeams (players : list Player) (assignment : list Z)
  : list Player * list Player :=
  splitIntoTeams_loop players 0 assignment [] [].

(** [players.reduce((sum, p) => sum + p.rating, 0)] *)
Definition calculateTotalRating (players : list Player) : Z :=
  fold_left (fun sum p => sum + rating p) players 0.

(** [Math.abs(totalA - totalB)], the rating difference the CLI reports. *)
Definition ratingDiff (totalA totalB : Z) : Z := Z.abs (totalA - totalB).

End Utils.

(* ================================================================== *)
(** ** JavaScript values, as far as the solver service inspects them *)

Module Js.

(** Plain data as the engine's client library hands it over: what
    [JSON.parse] can build, plus [undefined]. An object is the list of its
    own properties. *)
#[warnings="-register-all"]
Inductive value : Type :=
| JUndefined
| JNull
| JBool (b : bool)
| JNum (n : Z)
| JStr (s : string)
| JArr (items : list value)
| JObj (props : list (string * value)).

(** JavaScript's [ToBoolean]. *)
Definition truthy (v : value) : bool :=
  match v with
  | JUndefined | JNull => false
  | JBool b => b
  | JNum n => negb (n =? 0)
  | JStr s => negb (is_empty s)
  | JArr _ | JObj _ => true
  end.

(** [v?.k] for the property names the service probes ([output], [status],
    [solution], [result], [statistics], [default], [json], [message]): none of
    them is inherited from a built-in prototype, so only an object's own
    properties answer. *)
Definition get (v : value) (k : string) : value :=
  match v with
  | JObj props =>
      match Constants.own_property props k with
      | Some x => x
      | None => JUndefined
      end
  | _ => JUndefined
  end.

(** [a || b] *)
Definition or (a b : value) : value := if truthy a then a else b.

(** [a ?? b] *)
Definition nullish (a b : value) : value :=
  match a with
  | JUndefined | JNull => b
  | _ => a
  end.

(** What a [catch] clause can receive: an instance of [Error] with its
    message, or any other value. *)
Inductive thrown : Type :=
| ErrorObject (message : string)
| ThrownValue (v : value).

End Js.

Declare Scope js_scope.
Delimit Scope js_scope with js.
Notation "v @? k" := (Js.get v k) (at level 25, left associativity) : js_scope.
Notation "a '|||' b" := (Js.or a b) (at level 50, left associativity) : js_scope.
Notation "a '???' b" := (Js.nullish a b) (at level 51, right associativity) : js_scope.

(* ================================================================== *)
(** ** [src/solver/types.ts] and [src/solver/service.ts] *)

Module Service.
Import Js.
Local Open Scope js_scope.

Inductive ExecutionMode := browser | node.

Record MiniZincInitConfig := mkInitConfig
  { cfg_wasmURL : option string;
    cfg_workerURL : option string;
    cfg_dataURL : option string;
    cfg_minizinc : option string }.

Record SolverConfig := mkSolverConfig
  { solver : string;
    timeLimit : option Z;
    allSolutions : option bool }.

(** [SolverResult]. The declared type of [status] is the union of five
    string literals; at run time the field holds whatever [solve] stores in
    it, so it is a JavaScript value here. *)
Record SolverResult := mkSolverResult
  { status : value;
    solution : value;
    statistics : value;
    solveTime : Z;
    errorMessage : option string }.

(** *** The [minizinc] package and the host, as the service uses them *)

Inductive InitOptions :=
| InitBrowser (workerURL wasmURL dataURL : string)
| InitNode (minizinc : string).

Record SolveOptions := mkSolveOptions
  { opt_solver : string;
    opt_time_limit : Z;
    opt_all_solutions : bool;
    opt_statistics : bool }.

Record SolveRequest := mkSolveRequest
  { req_filename : string;
    req_model : string;
    req_data : Utils.ModelData;
    req_options : SolveOptions }.

(** Everything outside the repository that the service calls or reads. *)
Record Host := mkHost
  { has_window : bool;
    env_MINIZINC_BIN : option string;
    env_MINIZINC_AVAILABLE_SOLVERS : option string;
    MiniZinc_init : InitOptions -> option thrown;
    Model_solve : SolveRequest -> thrown + value;
    Date_now : nat -> Z;
    JSON_parse : string -> option value;
    JSON_stringify : value -> string;
    String_of : value -> string }.

(** *** The service object and the effects of its methods *)

Record MiniZincService := mkService
  { mode : ExecutionMode;
    initialized : bool }.

Inductive Event :=
| CalledInit (o : InitOptions)
| CalledSolve (r : SolveRequest).

(** The service's fields, the calls made on the engine so far (oldest
    first) and the number of clock readings taken. *)
Record World := mkWorld
  { this : MiniZincService;
    calls : list Event;
    clock : nat }.

(** A method body: it runs in a world and either throws or returns. *)
Definition M (A : Type) : Type := World -> (thrown + A) * World.

Definition ret {A : Type} (a : A) : M A := fun w => (inr a, w).

Definition throw {A : Type} (e : thrown) : M A := fun w => (inl e, w).

Definition bind {A B : Type} (m : M A) (k : A -> M B) : M B :=
  fun w =>
    match m w with
    | (inr a, w') => k a w'
    | (inl e, w') => (inl e, w')
    end.

Definition try_catch {A : Type} (body : M A) (handler : thrown -> M A) : M A :=
  fun w =>
    match body w with
    | (inr a, w') => (inr a, w')
    | (inl e, w') => handler e w'
    end.

Notation "x <- m ;; k" := (bind m (fun x => k))
  (at level 61, m at next level, right associativity).
Notation "m ;;; k" := (bind m (fun _ => k))
  (at level 61, right associativity).

Definition read_this : M MiniZincService := fun w => (inr (this w), w).

Definition set_initialized (b : bool) : M unit :=
  fun w => (inr tt, mkWorld (mkService (mode (this w)) b) (calls w) (clock w)).

Definition record (e : Event) : M unit :=
  fun w => (inr tt, mkWorld (this w) (calls w ++ [e]) (clock w)).

Definition of_outcome {A : Type} (r : thrown + A) : M A := fun w => (r, w).

(** [Date.now()] *)
Definition now (H : Host) : M Z :=
  fun w => (inr (Date_now H (clock w)), mkWorld (this w) (calls w) (S (clock w))).

(** [await MiniZinc.init(o)] *)
Definition call_init (H : Host) (o : InitOptions) : M unit :=
  record (CalledInit o) ;;;
  match MiniZinc_init H o with
  | Some e => throw e
  | None => ret tt
  end.

(** Building the model ([new MiniZinc.Model()], [addFile], [addJson]) and
    [await model.solve({ options })], as one call on the engine. *)
Definition call_solve (H : Host) (r : SolveRequest) : M value :=
  record (CalledSolve r) ;;;
  of_outcome (Model_solve H r).

(** [constructor()] *)
Definition constructor (H : Host) : MiniZincService :=
  mkService (if has_window H then browser else node) false.

(** [config?.field || fallback] for an optional string *)
Definition field_or {C : Type} (config : option C) (f : C -> option string)
           (fallback : string) : string :=
  Utils.or_default (match config with Some c => f c | None => None end) fallback.

Definition init (H : Host) (config : option MiniZincInitConfig) : M unit :=
  s <- read_this ;;
  if initialized s then ret tt
  else
    (match mode s with
     | browser =>
         call_init H (InitBrowser
                        (field_or config cfg_workerURL "./minizinc-worker.js")
                        (field_or config cfg_wasmURL "./minizinc.wasm")
                        (field_or config cfg_dataURL "./minizinc.data"))
     | node =>
         call_init H (InitNode
                        (field_or config cfg_minizinc
                                  (Utils.or_default (env_MINIZINC_BIN H) "minizinc")))
     end) ;;;
    set_initialized true.

Definition wasmSolvers : list string := ["gecode"; "chuffed"; "cbc"].

(** [arr.includes(x)] *)
Definition includes (l : list string) (x : string) : bool :=
  existsb (String.eqb x) l.

Definition isSolverAvailable (s : MiniZincService) (solver : string) : bool :=
  match mode s with
  | browser => includes wasmSolvers solver
  | node => true
  end.

Definition getMode (s : MiniZincService) : ExecutionMode := mode s.

(** [envList.split(',').map((s) => s.trim()).filter(Boolean)] *)
Definition split_solver_list (envList : string) : list string :=
  filter (fun s => negb (is_empty s)) (map trim (split "," envList)).

Definition getAvailableSolvers (H : Host) (s : MiniZincService) : list string :=
  match mode s with
  | browser => ["gecode"; "chuffed"; "cbc"]
  | node =>
      match env_MINIZINC_AVAILABLE_SOLVERS H with
      | Some envList =>
          if negb (is_empty envList) && (0 <? Z.of_nat (String.length (trim envList)))
          then split_solver_list envList
          else ["cbc"; "coinbc"; "cp-sat"; "chuffed"]
      | None => ["cbc"; "coinbc"; "cp-sat"; "chuffed"]
      end
  end.

Definition unavailable_message (solver : string) : string :=
  "Solver " ++ dquote ++ solver ++ dquote ++ " is not available in WASM mode. "
    ++ "Available solvers: gecode, chuffed, cbc. "
    ++ "Use local Node.js mode for cp-sat.".

(** *** Normalising the engine's response, as the [try] block of [solve] does *)

(** [resultAny?.output ?? resultAny?.solution?.output?.default ?? null] *)
Definition rawOutput (resultAny : value) : value :=
  (resultAny @? "output")
    ??? (resultAny @? "solution" @? "output" @? "default")
    ??? JNull.

(** [parsed]: [null] unless [rawOutput] is a string that [JSON.parse]
    accepts after trimming. *)
Definition parsed_output (H : Host) (resultAny : value) : value :=
  match rawOutput resultAny with
  | JStr text =>
      match JSON_parse H (trim text) with
      | Some v => v
      | None => JNull
      end
  | _ => JNull
  end.

Definition extract_status (parsed resultAny : value) : value :=
  (parsed @? "status")
    ||| (resultAny @? "status")
    ||| (resultAny @? "result" @? "status")
    ||| (resultAny @? "solution" @? "status")
    ||| (if truthy parsed then JStr "OPTIMAL" else JStr "UNKNOWN").

Definition extract_solution (parsed resultAny : value) : value :=
  (parsed @? "solution")
    ||| (resultAny @? "solution" @? "output" @? "json")
    ||| (resultAny @? "solution" @? "solution")
    ||| (resultAny @? "solution")
    ||| (resultAny @? "result")
    ||| JNull.

Definition extract_statistics (parsed resultAny : value) : value :=
  (parsed @? "statistics")
    ||| (resultAny @? "statistics")
    ||| (resultAny @? "result" @? "statistics")
    ||| JNull.

(** The object returned at the end of the [try] block. *)
Definition normalize (H : Host) (resultAny : value) (solveTime : Z) : SolverResult :=
  let parsed := parsed_output H resultAny in
  mkSolverResult (extract_status parsed resultAny)
                 (extract_solution parsed resultAny)
                 (extract_statistics parsed resultAny)
                 solveTime
                 None.

(** *** Formatting the caught error, as the [catch] block of [solve] does *)

Definition not_a_function : thrown :=
  ErrorObject "errObj.toString is not a function".

(** The branch [error && typeof error === 'object'] for an object with own
    properties [props]. Without an own [toString] the inherited
    [Object.prototype.toString] answers "[object Object]"; an own [toString]
    holding truthy data is not callable, and calling it throws. *)
Definition object_message (H : Host) (props : list (string * value)) : thrown + string :=
  match JObj props @? "message" with
  | JStr m => inr m
  | _ =>
      match Constants.own_property props "toString" with
      | Some f =>
          if truthy f then inl not_a_function
          else inr (JSON_stringify H (JObj props))
      | None => inr (JSON_stringify H (JObj props))
      end
  end.

(** The same branch for an array: [toString] is [Array.prototype.toString],
    which renders the array as [String] does. *)
Definition array_message (H : Host) (items : list value) : string :=
  if negb (String.eqb (String_of H (JArr items)) "[object Object]")
  then String_of H (JArr items)
  else JSON_stringify H (JArr items).

Definition error_message (H : Host) (error : thrown) : thrown + string :=
  match error with
  | ErrorObject message => inr message
  | ThrownValue (JStr s) => inr s
  | ThrownValue (JObj props) => object_message H props
  | ThrownValue (JArr items) => inr (array_message H items)
  | ThrownValue _ => inr "Unknown error"
  end.

(** *** [solve] *)

Definition default_modelFilename : string := "model.mzn".

(** [x || d] for an optional number: [undefined] and 0 are falsy. *)
Definition num_or (x : option Z) (d : Z) : Z :=
  match x with
  | Some n => if n =? 0 then d else n
  | None => d
  end.

(** [x || false] for an optional boolean. *)
Definition bool_or_false (x : option bool) : bool :=
  match x with
  | Some b => b
  | None => false
  end.

Definition solve (H : Host) (modelCode : string) (data : Utils.ModelData)
           (config : SolverConfig) (modelFilename : string) : M SolverResult :=
  s <- read_this ;;
  (if negb (initialized s) then init H None else ret tt) ;;;
  s <- read_this ;;
  if match mode s with browser => true | node => false end
     && negb (isSolverAvailable s (solver config))
  then throw (ErrorObject (unavailable_message (solver config)))
  else
    startTime <- now H ;;
    try_catch
      (result <- call_solve H
                  (mkSolveRequest modelFilename modelCode data
                     (mkSolveOptions (solver config)
                                     (num_or (timeLimit config) 10000)
                                     (bool_or_false (allSolutions config))
                                     true)) ;;
       t <- now H ;;
       ret (normalize H result (t - startTime)))
      (fun error =>
         t <- now H ;;
         errorMessage <- of_outcome (error_message H error) ;;
         ret (mkSolverResult (JStr "ERROR") JNull JNull (t - startTime)
                             (Some errorMessage))).

(** *** Observations on a run *)

(** How many times the engine was asked to solve. *)
Definition solve_invocations (w : World) : nat :=
  List.length (filter (fun e => match e with CalledSolve _ => true | _ => false end)
                      (calls w)).

(** A normalised result handed back as if it were an engine response. *)
Definition as_response (r : SolverResult) : value :=
  JObj ([ ("status", status r);
          ("solution", solution r);
          ("statistics", statistics r);
          ("solveTime", JNum (solveTime r)) ]
        ++ match errorMessage r with
           | Some m => [("errorMessage", JStr m)]
           | None => []
           end).

End Service.

(* ================================================================== *)
(** ** The specification's wording, and the inputs of the scenarios *)

Module Spec.
Import Js Service.
Local Open Scope js_scope.

(** *** Rows of the CSV, as [parseCSV] reads them *)

(** [csvText.trim().split('\n')] *)
Definition lines_of (csvText : string) : list string :=
  split (ascii_of_nat 10) (trim csvText).

(** The header cells, trimmed and lower-cased. *)
Definition headers_of (header : string) : list string :=
  map (fun h => toLowerCase (trim h)) (split "," header).

(** The cells of a data row. *)
Definition cells (raw : string) : list string := split "," (trim raw).

(** The rating of a row: what [parseInt] makes of its rating cell. *)
Definition rating_of_row (ratingIdx : Z) (raw : string) : option Z :=
  parseInt (Utils.opt_trim (at_index (cells raw) ratingIdx)).

(** The position value of a row: its position cell trimmed and lower-cased,
    absent when there is no position column or the row is too short. *)
Definition position_value (positionIdx : Z) (raw : string) : option string :=
  if positionIdx =? -1 then None
  else option_map toLowerCase (Utils.opt_trim (at_index (cells raw) positionIdx)).

(** What one row adds to each array, starting from empty arrays. *)
Definition row_arrays (nameIdx ratingIdx positionIdx : Z) (i : Z) (raw : string)
  : Utils.Arrays :=
  Utils.parseCSV_row nameIdx ratingIdx positionIdx i raw Utils.no_arrays.

(** Rows paired with their loop index, starting at [i]. *)
Fixpoint indexed (i : Z) (rows : list string) : list (Z * string) :=
  match rows with
  | [] => []
  | raw :: rest => (i, raw) :: indexed (i + 1) rest
  end.

Definition recognised_position (p : string) : bool :=
  String.eqb p "forward" || String.eqb p "midfield" || String.eqb p "defense".

(** The arrays stay index-aligned: every entry of the three derived arrays
    is computed from the player at the same index. *)
Definition aligned (acc : Utils.Arrays) : Prop :=
  Utils.a_ratings acc = map Utils.rating (Utils.a_players acc) /\
  Utils.a_positions acc = map Utils.position (Utils.a_players acc) /\
  Utils.a_positionIndices acc
  = map (fun p => Utils.position_index (Utils.position p)) (Utils.a_players acc).

(** The position a row gives its player: [unknown] for an absent or empty
    position value, else the value itself. *)
Definition position_of_row (positionIdx : Z) (raw : string) : string :=
  match position_value positionIdx raw with
  | Some s => if is_empty s then "unknown" else s
  | None => "unknown"
  end.

(** *** Team membership by assignment entry *)

Definition on_team_a (pt : Utils.Player * Z) : bool := snd pt =? 0.

Definition on_team_b (pt : Utils.Player * Z) : bool := negb (snd pt =? 0).

(** *** Status priority *)

(** The first truthy value of a list of candidates, else [fallback]. *)
Fixpoint first_truthy (candidates : list value) (fallback : value) : value :=
  match candidates with
  | [] => fallback
  | c :: rest => if truthy c then c else first_truthy rest fallback
  end.

(** Whether a JSON block was successfully parsed from the output text. *)
Definition json_block_parsed (H : Host) (raw : value) : bool :=
  match rawOutput raw with
  | JStr text =>
      match JSON_parse H (trim text) with
      | Some _ => true
      | None => false
      end
  | _ => false
  end.

(** The priority order in the specification's words: parsed-JSON status,
    direct status, nested solution status, then OPTIMAL when a JSON block
    was parsed, else UNKNOWN. *)
Definition spec_status (H : Host) (raw : value) : value :=
  first_truthy
    [ parsed_output H raw @? "status";
      raw @? "status";
      raw @? "solution" @? "status" ]
    (if json_block_parsed H raw then JStr "OPTIMAL" else JStr "UNKNOWN").

(** The same order with the nested [result] object's status between the
    direct and the nested solution status, and OPTIMAL for a truthy parsed
    value. *)
Definition spec_status_amended (H : Host) (raw : value) : value :=
  first_truthy
    [ parsed_output H raw @? "status";
      raw @? "status";
      raw @? "result" @? "status";
      raw @? "solution" @? "status" ]
    (if truthy (parsed_output H raw) then JStr "OPTIMAL" else JStr "UNKNOWN").

(** The five values of the declared type of [SolverResult.status]. *)
Definition status_vocabulary : list value :=
  [ JStr "OPTIMAL"; JStr "SATISFIED"; JStr "UNSATISFIABLE";
    JStr "UNKNOWN"; JStr "ERROR" ].

(** *** Responses that carry nothing the normaliser recognises *)

(** No parsed JSON value, and no truthy [status], [result] or [solution]
    property: this covers [null], [undefined], primitives, empty objects and
    output text that is not JSON. *)
Definition unrecognizable (H : Host) (raw : value) : Prop :=
  truthy (parsed_output H raw) = false /\
  truthy (raw @? "status") = false /\
  truthy (raw @? "result") = false /\
  truthy (raw @? "solution") = false.

(** *** The request [solve] submits *)

Definition request_of (modelCode : string) (data : Utils.ModelData)
           (config : SolverConfig) (modelFilename : string) : SolveRequest :=
  mkSolveRequest modelFilename modelCode data
    (mkSolveOptions (solver config) (num_or (timeLimit config) 10000)
                    (bool_or_false (allSolutions config)) true).

(** The options [init()] passes to the engine when [solve] calls it. *)
Definition default_init_options (H : Host) (m : ExecutionMode) : InitOptions :=
  match m with
  | browser => InitBrowser "./minizinc-worker.js" "./minizinc.wasm" "./minizinc.data"
  | node => InitNode (Utils.or_default (env_MINIZINC_BIN H) "minizinc")
  end.

(** [solve] gets past initialisation: the service is initialised already or
    the engine's [init] succeeds. *)
Definition init_succeeds (H : Host) (w : World) : Prop :=
  initialized (this w) = true \/
  MiniZinc_init H (default_init_options H (mode (this w))) = None.

(** *** Scenario inputs *)

Definition roster_csv : string :=
  "name,rating,position" ++ nl ++ "Alice,8,forward" ++ nl ++ "Bob,6,defense"
    ++ nl ++ "Charlie,7,midfield" ++ nl ++ "Diana,9,forward".

Definition goalkeeper_csv : string :=
  "name,rating,position" ++ nl ++ "Alice,8,goalkeeper".

Definition alice : Utils.Player := Utils.mkPlayer "Alice" 8 "forward".
Definition bob : Utils.Player := Utils.mkPlayer "Bob" 6 "defense".
Definition charlie : Utils.Player := Utils.mkPlayer "Charlie" 7 "midfield".
Definition diana : Utils.Player := Utils.mkPlayer "Diana" 9 "forward".

Definition roster_data : Utils.ModelData :=
  Utils.mkModelData 4 [alice; bob; charlie; diana] [8; 6; 7; 9]
    ["forward"; "defense"; "midfield"; "forward"]
    [Some 1; Some 3; Some 2; Some 1].

(** A host for the scenarios: the engine is a stub, the built-ins that the
    scenarios never reach answer with fixed values. *)
Definition stub_host (window : bool) (solvers_env : option string)
           (engine : SolveRequest -> thrown + value) : Host :=
  mkHost window None solvers_env (fun _ => None) engine
         (fun n => Z.of_nat n) (fun _ => None) (fun _ => "{}") (fun _ => EmptyString).

Definition fresh_world (H : Host) : World :=
  mkWorld (constructor H) [] 0.

Definition resolving (raw : value) : SolveRequest -> thrown + value :=
  fun _ => inr raw.

Definition failing (e : thrown) : SolveRequest -> thrown + value :=
  fun _ => inl e.

(** Node, no solver list in the environment, an engine that answers. *)
Definition node_host : Host := stub_host false None (resolving JNull).

(** Node with [MINIZINC_AVAILABLE_SOLVERS=gecode]. *)
Definition node_host_env_gecode : Host :=
  stub_host false (Some "gecode") (resolving JNull).

(** Browser, an engine that answers. *)
Definition browser_host : Host := stub_host true None (resolving JNull).

(** Node, an engine that throws [new Error('')]. *)
Definition node_host_empty_error : Host :=
  stub_host false None (failing (ErrorObject EmptyString)).

(** Node, an engine that throws [new Error('boom')]. *)
Definition node_host_boom : Host :=
  stub_host false None (failing (ErrorObject "boom")).

(** [{ result: { status: 'SATISFIED' }, solution: { status: 'OPTIMAL' } }] *)
Definition response_with_result_status : value :=
  JObj [ ("result", JObj [("status", JStr "SATISFIED")]);
         ("solution", JObj [("status", JStr "OPTIMAL")]) ].

(** [{ status: 'OPTIMAL_SOLUTION' }]: a status name of the engine's own,
    outside the five of [SolverResult]. *)
Definition response_optimal_solution : value :=
  JObj [("status", JStr "OPTIMAL_SOLUTION")].

(** [{ solution: { solution: { solution: 1 } } }] *)
Definition response_nested_solution : value :=
  JObj [("solution", JObj [("solution", JObj [("solution", JNum 1)])])].

(** [{ status: 'OPTIMAL', solution: { assignment: [0, 1, 1, 0] } }] *)
Definition response_assignment : value :=
  JObj [ ("status", JStr "OPTIMAL");
         ("solution", JObj [("assignment", JArr [JNum 0; JNum 1; JNum 1; JNum 0])]) ].

Definition config_for (solver : string) : SolverConfig :=
  mkSolverConfig solver (Some 10000) None.

Definition model_code : string := "solve satisfy;".

(** *** The claims that fail, as they are stated *)

(** Unsupported solver ids are rejected before the engine is invoked. *)
Definition rejects_unsupported (H : Host) (w : World) (config : SolverConfig) : Prop :=
  includes (getAvailableSolvers H (this w)) (solver config) = false ->
  forall modelCode data modelFilename,
  exists e w',
    solve H modelCode data config modelFilename w = (inl e, w') /\
    solve_invocations w' = 0%nat.

(** An engine exception becomes an ERROR result with a non-empty message. *)
Definition error_has_message (H : Host) (w : World) (modelCode : string)
           (data : Utils.ModelData) (config : SolverConfig) (modelFilename : string)
  : Prop :=
  forall e,
    Model_solve H (request_of modelCode data config modelFilename) = inl e ->
    exists r w',
      solve H modelCode data config modelFilename w = (inr r, w') /\
      status r = JStr "ERROR" /\ solution r = JNull /\
      exists m, errorMessage r = Some m /\ m <> EmptyString.

(** The node row of the capability lookup is fixed and has no gecode. *)
Definition node_row_fixed (H : Host) (s : MiniZincService) : Prop :=
  mode s = node ->
  getAvailableSolvers H s = ["cbc"; "coinbc"; "cp-sat"; "chuffed"] /\
  includes (getAvailableSolvers H s) "gecode" = false.

(** Every parsed player has a recognised position or [unknown]. *)
Definition positions_default_to_unknown (csvText : string) : Prop :=
  forall data p,
    Utils.parseCSV csvText = inr data ->
    In p (Utils.players data) ->
    recognised_position (Utils.position p) = false ->
    Utils.position p = "unknown".

(** Re-normalising a normalised result changes nothing. *)
Definition idempotent_at (H : Host) (raw : value) : Prop :=
  forall t t',
    let n := normalize H raw t in
    let n' := normalize H (as_response n) t' in
    status n' = status n /\ solution n' = solution n /\
    statistics n' = statistics n.

End Spec.

(* ================================================================== *)
(** ** [src/shared/utils.ts], the display helpers *)

Module Display.
Import Constants Utils.

(** The object [counts] of [countPositions], as its four counters. *)
Record PositionCounts := mkPositionCounts
  { forward : Z; midfield : Z; defense : Z; unknown : Z }.

Definition no_counts : PositionCounts := mkPositionCounts 0 0 0 0.

(** [player.position?.toLowerCase() || 'unknown'] *)
Definition counted_position (player : Player) : string :=
  or_default (Some (toLowerCase (position player))) "unknown".

(** One iteration of the [for ... of] loop of [countPositions]. The test
    [pos in counts] also answers true for a name that [counts] inherits from
    [Object.prototype]; [counts[pos]++] then writes a property of that name
    and leaves the four counters as they are. *)
Definition countPositions_step (counts : PositionCounts) (player : Player)
  : PositionCounts :=
  let pos := counted_position player in
  if String.eqb pos "forward" then
    mkPositionCounts (forward counts + 1) (midfield counts) (defense counts) (unknown counts)
  else if String.eqb pos "midfield" then
    mkPositionCounts (forward counts) (midfield counts + 1) (defense counts) (unknown counts)
  else if String.eqb pos "defense" then
    mkPositionCounts (forward counts) (midfield counts) (defense counts + 1) (unknown counts)
  else if String.eqb pos "unknown" then
    mkPositionCounts (forward counts) (midfield counts) (defense counts) (unknown counts + 1)
  else if inherited_property pos then counts
  else
    mkPositionCounts (forward counts) (midfield counts) (defense counts) (unknown counts + 1).

Definition countPositions (players : list Player) : PositionCounts :=
  fold_left countPositions_step players no_counts.

(** [POSITIONS[position]?.sortOrder ?? 99]: an inherited member has no
    [sortOrder], so it ranks 99 like a missing one. *)
Definition sortOrder_of (position : string) : Z :=
  match own_property POSITIONS position with
  | Some cfg => sortOrder cfg
  | None => 99
  end.

Section Sorting.
(** [a.localeCompare(b)], the host's collation of two names. *)
Variable localeCompare : string -> string -> Z.

(** The comparator handed to [sort]. *)
Definition compare_players (a b : Player) : Z :=
  let posA := sortOrder_of (position a) in
  let posB := sortOrder_of (position b) in
  if negb (posA =? posB) then posA - posB
  else localeCompare (Utils.name a) (Utils.name b).

(** [Array.prototype.sort] is stable. It is rendered as the stable
    insertion sort: a player goes in front of the first one it does not
    compare greater than. For a consistent comparator every stable sort
    gives this same array. *)
Fixpoint insert_player (p : Player) (sorted : list Player) : list Player :=
  match sorted with
  | [] => [p]
  | q :: rest =>
      if compare_players p q <=? 0 then p :: q :: rest
      else q :: insert_player p rest
  end.

(** [[...players].sort(comparator)]: a new array, the argument is not
    changed. *)
Definition sortPlayersByPosition (players : list Player) : list Player :=
  fold_right insert_player [] players.

End Sorting.

(** [String(n)] repeated spaces. *)
Fixpoint spaces (n : nat) : string :=
  match n with
  | O => EmptyString
  | S k => String " " (spaces k)
  end.

(** [s.padStart(width)] *)
Definition padStart (width : nat) (s : string) : string :=
  spaces (width - String.length s) ++ s.

(** [s.padEnd(width)] *)
Definition padEnd (width : nat) (s : string) : string :=
  s ++ spaces (width - String.length s).

(** The text of [formatPlayer] in front of the rating. *)
Definition formatPlayer_columns (player : Player) (index : Z) : string :=
  "  " ++ padStart 2 (of_Z (index + 1)) ++ ". " ++ padEnd 20 (Utils.name player)
       ++ " | " ++ padEnd 8 (position player) ++ " | Rating: ".

(** The rating is rendered in decimal, as the template literal renders an
    integer of magnitude below 10^21. *)
Definition formatPlayer (player : Player) (index : Z) : string :=
  formatPlayer_columns player index ++ of_Z (rating player).

End Display.

(* ================================================================== *)
(** ** [src/cli/commands.ts], the argument parser *)

Module Cli.
Import Constants.

Record CLIOptions := mkCLIOptions
  { solver : string;
    scenario : string;
    file : string;
    help : bool }.

Definition DEFAULT_SCENARIO : string := "ratings_only".

Definition default_options : CLIOptions :=
  mkCLIOptions DEFAULT_SOLVER DEFAULT_SCENARIO "data/test-players.csv" false.

(** [arg.startsWith('-')] *)
Definition startsWith_dash (arg : string) : bool :=
  match arg with
  | String "-" _ => true
  | _ => false
  end.

(** The [for] loop of [parseArgs] at index [i], with [rest] the arguments
    from [i] on. An option that finds a truthy next argument takes it and
    steps over it. *)
Fixpoint parseArgs_from (i : Z) (rest : list string) (options : CLIOptions)
  : CLIOptions :=
  match rest with
  | [] => options
  | arg :: rest' =>
      if String.eqb arg "--solver" || String.eqb arg "-s" then
        match rest' with
        | nextArg :: rest'' =>
            if negb (is_empty nextArg)
            then parseArgs_from (i + 2) rest''
                   (mkCLIOptions nextArg (scenario options) (file options) (help options))
            else parseArgs_from (i + 1) rest' options
        | [] => parseArgs_from (i + 1) rest' options
        end
      else if String.eqb arg "--scenario" || String.eqb arg "-c" then
        match rest' with
        | nextArg :: rest'' =>
            if negb (is_empty nextArg)
            then parseArgs_from (i + 2) rest''
                   (mkCLIOptions (solver options) nextArg (file options) (help options))
            else parseArgs_from (i + 1) rest' options
        | [] => parseArgs_from (i + 1) rest' options
        end
      else if String.eqb arg "--file" || String.eqb arg "-f" then
        match rest' with
        | nextArg :: rest'' =>
            if negb (is_empty nextArg)
            then parseArgs_from (i + 2) rest''
                   (mkCLIOptions (solver options) (scenario options) nextArg (help options))
            else parseArgs_from (i + 1) rest' options
        | [] => parseArgs_from (i + 1) rest' options
        end
      else if String.eqb arg "--help" || String.eqb arg "-h" then
        parseArgs_from (i + 1) rest'
          (mkCLIOptions (solver options) (scenario options) (file options) true)
      else if negb (startsWith_dash arg) && (i =? 0) then
        parseArgs_from (i + 1) rest'
          (mkCLIOptions arg (scenario options) (file options) (help options))
      else parseArgs_from (i + 1) rest' options
  end.

Definition parseArgs (args : list string) : CLIOptions :=
  parseArgs_from 0 args default_options.

End Cli.

(* ================================================================== *)
(** ** Notions used to state the further properties *)

Module Notions.
Import Js Service.

(** A text that [trim] leaves as it is. *)
Definition trimmed (s : string) : Prop := trim s = s.

(** The first character, if any, is not a decimal digit. *)
Definition no_leading_digit (s : string) : Prop :=
  match s with
  | EmptyString => True
  | String c _ => digit_val c = None
  end.

(** How many times the engine's [init] was called. *)
Definition init_invocations (w : World) : nat :=
  List.length (filter (fun e => match e with CalledInit _ => true | _ => false end)
                      (calls w)).

(** The requests of the solve calls made so far. *)
Definition solve_requests (w : World) : list SolveRequest :=
  flat_map (fun e => match e with CalledSolve r => [r] | _ => [] end) (calls w).

(** The options [init(config)] passes to the engine in mode [m]. *)
Definition init_options (H : Host) (m : ExecutionMode)
           (config : option MiniZincInitConfig) : InitOptions :=
  match m with
  | browser =>
      InitBrowser (field_or config cfg_workerURL "./minizinc-worker.js")
                  (field_or config cfg_wasmURL "./minizinc.wasm")
                  (field_or config cfg_dataURL "./minizinc.data")
  | node =>
      InitNode (field_or config cfg_minizinc
                         (Utils.or_default (env_MINIZINC_BIN H) "minizinc"))
  end.

(** Players whose counted position is one of the names that [counts]
    inherits. *)
Definition inherits_counted_position (p : Utils.Player) : bool :=
  Constants.inherited_property (Display.counted_position p).

(** The players of a list that [countPositions] counts. *)
Definition counted (players : list Utils.Player) : list Utils.Player :=
  filter (fun p => negb (inherits_counted_position p)) players.

(** Counter by counter sum. *)
Definition add_counts (a b : Display.PositionCounts) : Display.PositionCounts :=
  Display.mkPositionCounts
    (Display.forward a + Display.forward b)
    (Display.midfield a + Display.midfield b)
    (Display.defense a + Display.defense b)
    (Display.unknown a + Display.unknown b).

(** A position code equal to [k]. *)
Definition has_code (k : Z) (c : option Z) : bool :=
  match c with
  | Some n => n =? k
  | None => false
  end.

(** The codes 1, 2, 3 and 0 of a position-code array, counted. *)
Definition code_counts (codes : list (option Z)) : Display.PositionCounts :=
  Display.mkPositionCounts
    (Z.of_nat (List.length (filter (has_code 1) codes)))
    (Z.of_nat (List.length (filter (has_code 2) codes)))
    (Z.of_nat (List.length (filter (has_code 3) codes)))
    (Z.of_nat (List.length (filter (has_code 0) codes))).

(** The four counters added up. *)
Definition counters_sum (c : Display.PositionCounts) : Z :=
  Display.forward c + Display.midfield c + Display.defense c + Display.unknown c.

(** Defense before midfield before forward before everything else. *)
Definition ranked (players : list Utils.Player) : Prop :=
  Sorted (fun a b => Display.sortOrder_of (Utils.position a)
                     <= Display.sortOrder_of (Utils.position b)) players.


(** The number a run of decimal digits denotes after the digits read so
    far amount to [a]. *)
Fixpoint uint_after (d : Decimal.uint) (a : Z) : Z :=
  match d with
  | Decimal.Nil => a
  | Decimal.D0 d => uint_after d (10 * a)
  | Decimal.D1 d => uint_after d (10 * a + 1)
  | Decimal.D2 d => uint_after d (10 * a + 2)
  | Decimal.D3 d => uint_after d (10 * a + 3)
  | Decimal.D4 d => uint_after d (10 * a + 4)
  | Decimal.D5 d => uint_after d (10 * a + 5)
  | Decimal.D6 d => uint_after d (10 * a + 6)
  | Decimal.D7 d => uint_after d (10 * a + 7)
  | Decimal.D8 d => uint_after d (10 * a + 8)
  | Decimal.D9 d => uint_after d (10 * a + 9)
  end.

(** Evaluate [digit_val] on a literal character in the goal. *)
Ltac eval_digit :=
  match goal with
  | |- context [digit_val ?c] =>
      let v := eval vm_compute in (digit_val c) in
      change (digit_val c) with v
  end.

(** 2^53. Every integer up to this magnitude is a double-precision number,
    so on such integers the code's [parseInt], [+] and number-to-string
    conversion are exact and agree with the integers used here. *)
Definition MAX_EXACT : Z := 9007199254740992.

Definition exact_integer (n : Z) : Prop := Z.abs n <= MAX_EXACT.

(** The magnitudes of the ratings add up to at most 2^53: the ratings, and
    the sums of any of them taken in any order, are exact in double
    precision. *)
Definition exact_ratings (players : list Utils.Player) : Prop :=
  fold_right (fun p s => Z.abs (Utils.rating p) + s) 0 players <= MAX_EXACT.


(** A collation is total when it never puts each of two names after the
    other. *)
Definition collation_total (localeCompare : string -> string -> Z) : Prop :=
  forall a b : string, 0 < localeCompare a b -> localeCompare b a <= 0.

(** Each player is followed by one the comparator does not put before
    it. *)
Definition in_comparator_order (localeCompare : string -> string -> Z)
           (players : list Utils.Player) : Prop :=
  Sorted (fun a b => Display.compare_players localeCompare a b <= 0) players.

(** Options whose values are defaults or come from the arguments [all]. *)
Definition drawn_from (all : list string) (options : Cli.CLIOptions) : Prop :=
  In (Cli.solver options) (Constants.DEFAULT_SOLVER :: all) /\
  In (Cli.scenario options) (Cli.DEFAULT_SCENARIO :: all) /\
  In (Cli.file options) ("data/test-players.csv" :: all) /\
  Cli.scenario options <> EmptyString /\
  Cli.file options <> EmptyString /\
  (Cli.help options = true -> In "--help" all \/ In "-h" all) /\
  (Cli.solver options = EmptyString -> hd_error all = Some EmptyString).

(** The text [{"status":"SATISFIED","solution":{"assignment":[0,1]},
    "statistics":{"nodes":7}}] that a model prints. *)
Definition json_block_text : string :=
  "{" ++ dquote ++ "status" ++ dquote ++ ":" ++ dquote ++ "SATISFIED" ++ dquote
      ++ "," ++ dquote ++ "solution" ++ dquote ++ ":{" ++ dquote ++ "assignment"
      ++ dquote ++ ":[0,1]}," ++ dquote ++ "statistics" ++ dquote ++ ":{"
      ++ dquote ++ "nodes" ++ dquote ++ ":7}}".

Definition json_block_value : value :=
  JObj [ ("status", JStr "SATISFIED");
         ("solution", JObj [("assignment", JArr [JNum 0; JNum 1])]);
         ("statistics", JObj [("nodes", JNum 7)]) ].

(** A host whose [JSON.parse] knows that one text. *)
Definition json_host : Host :=
  mkHost false None None (fun _ => None) (fun _ => inr JNull)
         (fun n => Z.of_nat n)
         (fun text => if String.eqb text json_block_text
                      then Some json_block_value else None)
         (fun _ => "{}") (fun _ => EmptyString).

(** [{ status: 'UNKNOWN', output: '<the text above>' }] *)
Definition response_with_json_block : value :=
  JObj [("status", JStr "UNKNOWN"); ("output", JStr json_block_text)].

(** Names matched byte by byte: a consistent stand-in for the host's
    collation in examples. *)
Definition compare_bytes (a b : string) : Z :=
  match String.compare a b with
  | Lt => -1
  | Eq => 0
  | Gt => 1
  end.

Definition failing_init_host (e : thrown) : Host :=
  mkHost false None None (fun _ => Some e) (fun _ => inr JNull)
         (fun n => Z.of_nat n) (fun _ => None) (fun _ => "{}") (fun _ => EmptyString).

End Notions.

(* ================================================================== *)
(** * Properties of [src/shared/utils.ts] *)

Open Scope list_scope.

Section ListFacts.
Context {A B : Type}.

Lemma at_index_of_nat (l : list A) (k : nat) :
  at_index l (Z.of_nat k) = nth_error l k.
Proof.
  unfold at_index.
  destruct (Z.ltb_spec (Z.of_nat k) 0) as [Hneg | _]; [lia |].
  now rewrite Nat2Z.id.
Qed.

Lemma skipn_cons_nth (l : list A) (k : nat) (x : A) :
  nth_error l k = Some x -> skipn k l = x :: skipn (S k) l.
Proof.
  revert l; induction k as [| k IH]; intros [| y l] Hk; simpl in Hk; try discriminate.
  - now inversion Hk.
  - now apply IH.
Qed.

Lemma filter_split_length (f : A -> bool) (l : list A) :
  (List.length (filter f l) + List.length (filter (fun x => negb (f x)) l)
   = List.length l)%nat.
Proof.
  induction l as [| x l IH]; simpl; [reflexivity |].
  destruct (f x); simpl; lia.
Qed.

Lemma filter_split_permutation (f : A -> bool) (l : list A) :
  Permutation (filter f l ++ filter (fun x => negb (f x)) l) l.
Proof.
  induction l as [| x l IH]; simpl; [constructor |].
  destruct (f x); simpl.
  - now constructor.
  - symmetry. apply Permutation_cons_app. now symmetry.
Qed.

Lemma map_fst_combine (l : list A) (l' : list B) :
  map fst (combine l l') = firstn (List.length l') l.
Proof.
  revert l'; induction l as [| x l IH]; intros [| y l']; simpl; try reflexivity.
  now rewrite IH.
Qed.

Lemma firstn_min_length_players (l : list A) (n : nat) :
  firstn (Nat.min n (List.length l)) l = firstn n l.
Proof.
  destruct (Nat.le_ge_cases n (List.length l)) as [Hle | Hge].
  - now rewrite Nat.min_l.
  - rewrite Nat.min_r by assumption.
    now rewrite firstn_all, firstn_all2.
Qed.

End ListFacts.

Module SplitProps.
Import Utils Spec.

(** The loop entered at index [k] appends, team by team, the players still
    ahead that are paired with an assignment entry. *)
Lemma splitIntoTeams_loop_spec (players : list Player) :
  forall (rest : list Z) (k : nat) (teamA teamB : list Player),
    splitIntoTeams_loop players (Z.of_nat k) rest teamA teamB =
    (teamA ++ map fst (filter on_team_a (combine (skipn k players) rest)),
     teamB ++ map fst (filter on_team_b (combine (skipn k players) rest))).
Proof.
  induction rest as [| team rest IH]; intros k teamA teamB.
  - simpl. rewrite combine_nil. simpl. now rewrite !app_nil_r.
  - cbn [splitIntoTeams_loop].
    replace (Z.of_nat k + 1) with (Z.of_nat (S k)) by lia.
    rewrite at_index_of_nat.
    destruct (Z.ltb_spec (Z.of_nat k) (Z.of_nat (List.length players))) as [Hin | Hout].
    + destruct (nth_error players k) as [p |] eqn:Hp.
      * rewrite (skipn_cons_nth _ _ _ Hp). cbn [combine filter map].
        unfold on_team_a at 1, on_team_b at 1. cbn [snd fst].
        destruct (team =? 0); cbn [negb map fst]; rewrite IH; unfold push;
          now rewrite <- app_assoc.
      * apply nth_error_None in Hp. lia.
    + rewrite IH.
      rewrite (skipn_all2 players (n := k)) by lia.
      rewrite (skipn_all2 players (n := S k)) by lia.
      reflexivity.
Qed.

End SplitProps.

Module SplitTheorems.
Import Utils Spec SplitProps.

(** C10. [splitIntoTeams] walks the assignment with the players: the player
    at index [i] goes to Team A exactly when [assignment[i]] is 0 and to
    Team B for any other value; entries past the players and players past
    the assignment are dropped; the two teams keep the players' order and
    together are the first [min (length assignment) (length players)]
    players. *)
Theorem C10_splitIntoTeams_partition :
  forall (players : list Player) (assignment : list Z),
    let teams := splitIntoTeams players assignment in
    fst teams = map fst (filter on_team_a (combine players assignment)) /\
    snd teams = map fst (filter on_team_b (combine players assignment)) /\
    (List.length (fst teams) + List.length (snd teams)
     = Nat.min (List.length players) (List.length assignment))%nat /\
    Permutation (fst teams ++ snd teams)
                (firstn (Nat.min (List.length assignment) (List.length players)) players).
Proof.
  intros players assignment teams.
  assert (Hteams : teams =
            (map fst (filter on_team_a (combine players assignment)),
             map fst (filter on_team_b (combine players assignment)))).
  { unfold teams, splitIntoTeams.
    change 0 with (Z.of_nat 0).
    now rewrite splitIntoTeams_loop_spec. }
  rewrite Hteams; cbn [fst snd].
  repeat split.
  - rewrite !length_map.
    unfold on_team_b.
    rewrite (filter_split_length on_team_a).
    apply length_combine.
  - rewrite <- map_app.
    rewrite firstn_min_length_players.
    rewrite <- map_fst_combine.
    apply Permutation_map.
    unfold on_team_b.
    apply (filter_split_permutation on_team_a).
Qed.

End SplitTheorems.

Module ParseProps.
Import Utils Spec.

Lemma aligned_no_arrays : aligned no_arrays.
Proof. repeat split. Qed.

Lemma parseCSV_row_aligned (nameIdx ratingIdx positionIdx i : Z) (raw : string)
      (acc : Arrays) :
  aligned acc -> aligned (parseCSV_row nameIdx ratingIdx positionIdx i raw acc).
Proof.
  intros (Hr & Hp & Hi). unfold parseCSV_row.
  destruct (is_empty (trim raw)); [now repeat split |].
  destruct (2 <=? _); [| now repeat split].
  destruct (parseInt _) as [r |]; [| now repeat split].
  unfold aligned, push; cbn [a_players a_ratings a_positions a_positionIndices].
  rewrite !map_app, Hr, Hp, Hi. now repeat split.
Qed.

Lemma parseCSV_loop_aligned (nameIdx ratingIdx positionIdx : Z) :
  forall (rows : list string) (i : Z) (acc : Arrays),
    aligned acc -> aligned (parseCSV_loop nameIdx ratingIdx positionIdx i rows acc).
Proof.
  induction rows as [| raw rows IH]; intros i acc Hacc; simpl; [assumption |].
  apply IH. now apply parseCSV_row_aligned.
Qed.

(** What an accepted CSV text looks like, and where its payload comes from. *)
Lemma parseCSV_accepted (csvText : string) (data : ModelData) :
  parseCSV csvText = inr data ->
  exists header rows,
    lines_of csvText = header :: rows /\
    let nameIdx := indexOf (headers_of header) "name" in
    let ratingIdx := indexOf (headers_of header) "rating" in
    let positionIdx := indexOf (headers_of header) "position" in
    let acc := parseCSV_loop nameIdx ratingIdx positionIdx 1 rows no_arrays in
    nameIdx <> -1 /\ ratingIdx <> -1 /\
    data = mkModelData (Z.of_nat (List.length (a_players acc)))
                       (a_players acc) (a_ratings acc)
                       (a_positions acc) (a_positionIndices acc).
Proof.
  unfold parseCSV, lines_of, headers_of.
  destruct (split _ (trim csvText)) as [| header [| row rows]]; try discriminate.
  intros Hparse. exists header, (row :: rows). split; [reflexivity |].
  cbv zeta.
  destruct (Z.eqb_spec (indexOf (map (fun h => toLowerCase (trim h)) (split "," header)) "name") (-1))
    as [| Hname]; [discriminate |].
  destruct (Z.eqb_spec (indexOf (map (fun h => toLowerCase (trim h)) (split "," header)) "rating") (-1))
    as [| Hrating]; [discriminate |].
  cbn [orb] in Hparse.
  destruct (Nat.eqb _ 0); [discriminate |].
  inversion Hparse. now repeat split.
Qed.

Section Rows.
Variables nameIdx ratingIdx positionIdx : Z.

Local Abbreviation row := (parseCSV_row nameIdx ratingIdx positionIdx).
Local Abbreviation contribution := (row_arrays nameIdx ratingIdx positionIdx).

(** An iteration only ever appends: what it adds does not depend on what
    the arrays already hold. *)
Lemma parseCSV_row_appends (i : Z) (raw : string) (acc : Arrays) :
  a_players (row i raw acc) = a_players acc ++ a_players (contribution i raw) /\
  a_ratings (row i raw acc) = a_ratings acc ++ a_ratings (contribution i raw) /\
  a_positions (row i raw acc) = a_positions acc ++ a_positions (contribution i raw) /\
  a_positionIndices (row i raw acc)
  = a_positionIndices acc ++ a_positionIndices (contribution i raw).
Proof.
  unfold row_arrays, parseCSV_row.
  destruct (is_empty (trim raw)); [cbn; now rewrite !app_nil_r |].
  destruct (2 <=? _); [| cbn; now rewrite !app_nil_r].
  destruct (parseInt _) as [r |]; [| cbn; now rewrite !app_nil_r].
  cbn. now repeat split.
Qed.

Lemma parseCSV_loop_appends :
  forall (rows : list string) (i : Z) (acc : Arrays),
    let final := parseCSV_loop nameIdx ratingIdx positionIdx i rows acc in
    a_players final = a_players acc ++ flat_map (fun ir => a_players (contribution (fst ir) (snd ir))) (indexed i rows) /\
    a_ratings final = a_ratings acc ++ flat_map (fun ir => a_ratings (contribution (fst ir) (snd ir))) (indexed i rows) /\
    a_positions final = a_positions acc ++ flat_map (fun ir => a_positions (contribution (fst ir) (snd ir))) (indexed i rows) /\
    a_positionIndices final
    = a_positionIndices acc ++ flat_map (fun ir => a_positionIndices (contribution (fst ir) (snd ir))) (indexed i rows).
Proof.
  induction rows as [| raw rows IH]; intros i acc; cbn [parseCSV_loop indexed flat_map].
  - cbn. now rewrite !app_nil_r.
  - cbv zeta in IH |- *.
    destruct (IH (i + 1) (parseCSV_row nameIdx ratingIdx positionIdx i raw acc))
      as (Hp & Hr & Hs & Hi).
    destruct (parseCSV_row_appends i raw acc) as (Hp' & Hr' & Hs' & Hi').
    rewrite Hp, Hr, Hs, Hi, Hp', Hr', Hs', Hi'. cbn [fst snd].
    now rewrite <- !app_assoc.
Qed.

(** A row whose rating cell does not parse changes no array. *)
Lemma unparsable_row_skipped (i : Z) (raw : string) (acc : Arrays) :
  rating_of_row ratingIdx raw = None -> row i raw acc = acc.
Proof.
  unfold rating_of_row, cells, parseCSV_row. intros ->.
  destruct (is_empty (trim raw)); [reflexivity |].
  now destruct (2 <=? _).
Qed.

(** The player a row contributes carries the row's position value, or
    [unknown] when that value is absent or empty. *)
Lemma row_player_position (i : Z) (raw : string) (p : Player) :
  In p (a_players (contribution i raw)) ->
  position p = position_of_row positionIdx raw.
Proof.
  unfold row_arrays, parseCSV_row, position_of_row, position_value, cells.
  destruct (is_empty (trim raw)); [intros [] |].
  destruct (2 <=? _); [| intros []].
  destruct (parseInt _) as [r |]; [| intros []].
  cbn. intros [<- | []]. cbn [position].
  destruct (positionIdx =? -1); reflexivity.
Qed.

End Rows.

(** Outside forward, midfield and defense, and outside the names every
    object inherits, the position code is 0. *)
Lemma position_index_unrecognised (s : string) :
  recognised_position s = false ->
  Constants.inherited_property s = false ->
  position_index s = Some 0.
Proof.
  unfold recognised_position, position_index. intros Hrec Hinh.
  apply orb_false_elim in Hrec as [Hrec Hdef].
  apply orb_false_elim in Hrec as [Hfwd Hmid].
  cbn [Constants.own_property Constants.POSITIONS].
  rewrite (String.eqb_sym "forward" s), Hfwd.
  rewrite (String.eqb_sym "midfield" s), Hmid.
  rewrite (String.eqb_sym "defense" s), Hdef.
  destruct (String.eqb "unknown" s); [reflexivity |].
  now rewrite Hinh.
Qed.

End ParseProps.

Module ParseFacts.
Import Utils Spec ParseProps.

(** At every index of an accepted payload the rating and the position code
    are those of the player at that index. *)
Lemma payload_aligned_by_index (csvText : string) (data : ModelData) :
  parseCSV csvText = inr data ->
  forall (i : nat) (p : Player),
    nth_error (players data) i = Some p ->
    nth_error (ratings data) i = Some (rating p) /\
    nth_error (position_indices data) i = Some (position_index (position p)).
Proof.
  intros Hparse.
  destruct (parseCSV_accepted _ _ Hparse) as (header & rows & _ & Hdata).
  cbv zeta in Hdata. destruct Hdata as (_ & _ & ->).
  cbn [ratings players position_indices].
  destruct (parseCSV_loop_aligned
              (indexOf (headers_of header) "name")
              (indexOf (headers_of header) "rating")
              (indexOf (headers_of header) "position")
              rows 1 no_arrays aligned_no_arrays) as (Hr & _ & Hi).
  rewrite Hr, Hi. intros i p Hp. split.
  - now apply map_nth_error.
  - now apply (map_nth_error (fun q => position_index (position q))).
Qed.

End ParseFacts.

Module ParseTheorems.
Import Utils Spec ParseProps ParseFacts.

(** C6. Every payload that [parseCSV] produces is index-aligned: the
    players, the ratings and the position codes have the same length (the
    player count), and at every index the rating is that player's rating and
    the position code is the code of that player's position. *)
Theorem C6_parseCSV_index_alignment :
  forall (csvText : string) (data : ModelData),
    parseCSV csvText = inr data ->
    List.length (ratings data) = List.length (players data) /\
    List.length (position_indices data) = List.length (players data) /\
    num_players data = Z.of_nat (List.length (players data)) /\
    forall (i : nat) (p : Player),
      nth_error (players data) i = Some p ->
      nth_error (ratings data) i = Some (rating p) /\
      nth_error (position_indices data) i = Some (position_index (position p)).
Proof.
  intros csvText data Hparse.
  destruct (parseCSV_accepted _ _ Hparse) as (header & rows & _ & Hdata).
  cbv zeta in Hdata. destruct Hdata as (_ & _ & ->).
  cbn [ratings players position_indices num_players].
  destruct (parseCSV_loop_aligned
              (indexOf (headers_of header) "name")
              (indexOf (headers_of header) "rating")
              (indexOf (headers_of header) "position")
              rows 1 no_arrays aligned_no_arrays) as (Hr & _ & Hi).
  rewrite Hr, Hi, !length_map.
  repeat split.
  - now apply map_nth_error.
  - now apply (map_nth_error (fun q => position_index (position q))).
Qed.

Lemma C6_parseCSV_index_alignment_witness :
  parseCSV roster_csv = inr roster_data /\
  List.length (ratings roster_data) = List.length (players roster_data).
Proof.
  split; [vm_compute; reflexivity |].
  apply (C6_parseCSV_index_alignment roster_csv roster_data).
  vm_compute; reflexivity.
Defined.

(** C7. The roster scenario: the four-row CSV parses to player count 4,
    ratings [8,6,7,9] and position codes [1,3,2,1]; the assignment
    [0,1,1,0] puts Alice and Diana on Team A (total 17) and Bob and Charlie
    on Team B (total 13), a rating difference of 4. *)
Theorem C7_roster_scenario :
  exists data : ModelData,
    parseCSV roster_csv = inr data /\
    num_players data = 4 /\
    ratings data = [8; 6; 7; 9] /\
    position_indices data = [Some 1; Some 3; Some 2; Some 1] /\
    map name (players data) = ["Alice"; "Bob"; "Charlie"; "Diana"] /\
    let teams := splitIntoTeams (players data) [0; 1; 1; 0] in
    map name (fst teams) = ["Alice"; "Diana"] /\
    map name (snd teams) = ["Bob"; "Charlie"] /\
    calculateTotalRating (fst teams) = 17 /\
    calculateTotalRating (snd teams) = 13 /\
    ratingDiff (calculateTotalRating (fst teams))
               (calculateTotalRating (snd teams)) = 4.
Proof.
  exists roster_data.
  split; [vm_compute; reflexivity |].
  repeat split.
Qed.

(** C8, as the code has it. For every accepted CSV text the payload arrays
    are, in row order, what each data row contributes; a row whose rating
    cell does not parse as an integer contributes nothing to any array; a
    parsed player's position is [unknown] when the position value is absent
    or empty and is otherwise the trimmed, lower-cased value itself,
    recognised or not; and the position code is 0 whenever the position is
    not forward, midfield or defense (the names that every object inherits
    apart). *)
Theorem C8_rows_skipped_positions_kept :
  forall (csvText : string) (data : ModelData),
    parseCSV csvText = inr data ->
    exists header rows,
      lines_of csvText = header :: rows /\
      let nameIdx := indexOf (headers_of header) "name" in
      let ratingIdx := indexOf (headers_of header) "rating" in
      let positionIdx := indexOf (headers_of header) "position" in
      let contribution := row_arrays nameIdx ratingIdx positionIdx in
      players data
      = flat_map (fun ir => a_players (contribution (fst ir) (snd ir))) (indexed 1 rows) /\
      ratings data
      = flat_map (fun ir => a_ratings (contribution (fst ir) (snd ir))) (indexed 1 rows) /\
      positions data
      = flat_map (fun ir => a_positions (contribution (fst ir) (snd ir))) (indexed 1 rows) /\
      position_indices data
      = flat_map (fun ir => a_positionIndices (contribution (fst ir) (snd ir))) (indexed 1 rows) /\
      (forall i raw,
          rating_of_row ratingIdx raw = None -> contribution i raw = no_arrays) /\
      (forall i raw p,
          In p (a_players (contribution i raw)) ->
          position p = position_of_row positionIdx raw) /\
      (forall k p,
          nth_error (players data) k = Some p ->
          recognised_position (position p) = false ->
          Constants.inherited_property (position p) = false ->
          nth_error (position_indices data) k = Some (Some 0)).
Proof.
  intros csvText data Hparse.
  pose proof (payload_aligned_by_index _ _ Hparse) as Hcode.
  destruct (parseCSV_accepted _ _ Hparse) as (header & rows & Hlines & Hdata).
  exists header, rows. split; [assumption |].
  cbv zeta in Hdata |- *. destruct Hdata as (_ & _ & ->).
  cbn [players ratings positions position_indices] in *.
  destruct (parseCSV_loop_appends
              (indexOf (headers_of header) "name")
              (indexOf (headers_of header) "rating")
              (indexOf (headers_of header) "position") rows 1 no_arrays)
    as (Hp & Hr & Hs & Hi).
  cbn [no_arrays a_players a_ratings a_positions a_positionIndices app] in Hp, Hr, Hs, Hi.
  repeat split; try assumption.
  - intros i raw Hnan. now apply unparsable_row_skipped.
  - intros i raw p. apply row_player_position.
  - intros k p Hk Hrec Hinh.
    destruct (Hcode k p Hk) as (_ & ->).
    now rewrite position_index_unrecognised.
Qed.

Lemma C8_rows_skipped_positions_kept_witness :
  parseCSV goalkeeper_csv
  = inr (mkModelData 1 [mkPlayer "Alice" 8 "goalkeeper"] [8] ["goalkeeper"] [Some 0]) /\
  exists header rows, lines_of goalkeeper_csv = header :: rows.
Proof.
  split; [vm_compute; reflexivity |].
  destruct (C8_rows_skipped_positions_kept goalkeeper_csv
              (mkModelData 1 [mkPlayer "Alice" 8 "goalkeeper"] [8] ["goalkeeper"] [Some 0]))
    as (header & rows & Hlines & _).
  - vm_compute; reflexivity.
  - now exists header, rows.
Defined.

(** C8 fails as stated: an unrecognised position is kept, not replaced by
    [unknown]. The row [Alice,8,goalkeeper] yields a player whose position
    is [goalkeeper]. *)
Lemma C8_counterexample_goalkeeper :
  ~ positions_default_to_unknown goalkeeper_csv.
Proof.
  intros Hclaim.
  specialize (Hclaim
                (mkModelData 1 [mkPlayer "Alice" 8 "goalkeeper"] [8] ["goalkeeper"] [Some 0])
                (mkPlayer "Alice" 8 "goalkeeper")).
  cbn [players position] in Hclaim.
  assert (Hbad : "goalkeeper" = "unknown");
    [apply Hclaim; [vm_compute; reflexivity | now left | reflexivity] | discriminate].
Qed.

End ParseTheorems.

(* ================================================================== *)
(** * Properties of [src/solver/service.ts] *)

Module JsFacts.
Import Js.
Local Open Scope js_scope.

Lemma truthy_or (a b : value) : truthy (a ||| b) = truthy a || truthy b.
Proof. unfold Js.or. now destruct (truthy a) eqn:Ha; [rewrite Ha |]. Qed.

Lemma or_truthy (a b : value) : truthy a = true -> a ||| b = a.
Proof. unfold Js.or. now intros ->. Qed.

Lemma or_falsy (a b : value) : truthy a = false -> a ||| b = b.
Proof. unfold Js.or. now intros ->. Qed.

(** A chain of [||] that ends in [null] is truthy or is [null]. *)
Lemma or_null_falsy (a : value) : truthy (a ||| JNull) = false -> a ||| JNull = JNull.
Proof. unfold Js.or. destruct (truthy a) eqn:Ha; [congruence | reflexivity]. Qed.

(** Reading a property off a falsy value gives [undefined]. *)
Lemma get_of_falsy (v : value) (k : string) : truthy v = false -> v @? k = JUndefined.
Proof. destruct v; cbn; intros Hv; try reflexivity; discriminate. Qed.

End JsFacts.

Module TrimFacts.

Lemma trimStart_all_ws (s : string) : all_ws s = true -> trimStart s = EmptyString.
Proof.
  induction s as [| c s IH]; cbn; [reflexivity |].
  destruct (is_ws c); cbn; [assumption | discriminate].
Qed.

Lemma trimStart_not_all_ws (s : string) :
  all_ws s = false ->
  exists c r, trimStart s = String c r /\ is_ws c = false.
Proof.
  induction s as [| c s IH]; cbn; [discriminate |].
  destruct (is_ws c) eqn:Hc; cbn; [assumption |].
  intros _. now exists c, s.
Qed.

(** Trimming leaves nothing exactly when the text is all white space. *)
Lemma trim_length_all_ws (s : string) :
  (0 <? Z.of_nat (String.length (trim s))) = negb (all_ws s).
Proof.
  unfold trim. destruct (all_ws s) eqn:Hs.
  - now rewrite trimStart_all_ws.
  - destruct (trimStart_not_all_ws s Hs) as (c & r & -> & Hc).
    cbn [trimEnd all_ws]. rewrite Hc. cbn [andb String.length negb].
    apply Z.ltb_lt. lia.
Qed.

End TrimFacts.

Module CapabilityTheorems.
Import Js Service Spec Constants TrimFacts.

(** C5, as the code has it. The table [SOLVERS] has two fixed rows: the
    browser row is gecode, chuffed, cbc (no cp-sat) and the node row is cbc,
    coinbc, cp-sat, chuffed (no gecode). [getAvailableSolvers] answers with
    the browser row in the browser whatever the environment holds; in node
    it answers with the node row when MINIZINC_AVAILABLE_SOLVERS is unset or
    blank, and otherwise with the comma-separated names of that variable. *)
Theorem C5_capability_rows :
  forall (H : Host) (s : MiniZincService),
    SOLVERS_wasm = ["gecode"; "chuffed"; "cbc"] /\
    includes SOLVERS_wasm "cp-sat" = false /\
    SOLVERS_local = ["cbc"; "coinbc"; "cp-sat"; "chuffed"] /\
    includes SOLVERS_local "gecode" = false /\
    (mode s = browser -> getAvailableSolvers H s = SOLVERS_wasm) /\
    (mode s = node ->
     getAvailableSolvers H s =
     match env_MINIZINC_AVAILABLE_SOLVERS H with
     | Some envList =>
         if all_ws envList then SOLVERS_local else split_solver_list envList
     | None => SOLVERS_local
     end).
Proof.
  intros H s. repeat split.
  - unfold getAvailableSolvers. now intros ->.
  - unfold getAvailableSolvers. intros ->.
    destruct (env_MINIZINC_AVAILABLE_SOLVERS H) as [envList |]; [| reflexivity].
    rewrite trim_length_all_ws.
    destruct envList as [| c r]; [reflexivity |].
    cbn [is_empty negb andb].
    now destruct (all_ws (String c r)).
Qed.

Lemma C5_capability_rows_witness :
  getAvailableSolvers browser_host (constructor browser_host)
  = ["gecode"; "chuffed"; "cbc"] /\
  getAvailableSolvers node_host (constructor node_host)
  = ["cbc"; "coinbc"; "cp-sat"; "chuffed"].
Proof.
  split.
  - apply (C5_capability_rows browser_host (constructor browser_host)).
    reflexivity.
  - apply (C5_capability_rows node_host (constructor node_host)).
    reflexivity.
Defined.

(** C5 fails as stated for the node row: with
    MINIZINC_AVAILABLE_SOLVERS=gecode the node service lists gecode, and
    only gecode. *)
Lemma C5_counterexample_env_override :
  ~ node_row_fixed node_host_env_gecode (constructor node_host_env_gecode).
Proof.
  intros Hclaim. destruct (Hclaim eq_refl) as [Hrow _].
  vm_compute in Hrow. discriminate.
Qed.

End CapabilityTheorems.

Module NormalizerFacts.
Import Js Service Spec JsFacts.
Local Open Scope js_scope.

(** The status chain never yields a falsy value: it ends in a literal. *)
Lemma extract_status_truthy (parsed raw : value) :
  truthy (extract_status parsed raw) = true.
Proof.
  unfold extract_status. rewrite !truthy_or.
  destruct (truthy parsed); cbn; now rewrite !orb_true_r.
Qed.

Lemma extract_solution_null (parsed raw : value) :
  truthy (extract_solution parsed raw) = false ->
  extract_solution parsed raw = JNull.
Proof. unfold extract_solution. apply or_null_falsy. Qed.

Lemma extract_statistics_null (parsed raw : value) :
  truthy (extract_statistics parsed raw) = false ->
  extract_statistics parsed raw = JNull.
Proof. unfold extract_statistics. apply or_null_falsy. Qed.

(** A response that carries nothing recognisable normalises to UNKNOWN
    with a [null] solution. *)
Lemma unrecognizable_normalize (H : Host) (raw : value) (t : Z) :
  unrecognizable H raw ->
  status (normalize H raw t) = JStr "UNKNOWN" /\
  solution (normalize H raw t) = JNull.
Proof.
  intros (Hparsed & Hstatus & Hresult & Hsolution).
  unfold normalize; cbn [status solution].
  unfold extract_status, extract_solution.
  rewrite Hparsed.
  rewrite !(get_of_falsy (parsed_output H raw)) by assumption.
  rewrite !(get_of_falsy (raw @? "result")) by assumption.
  rewrite !(get_of_falsy (raw @? "solution")) by assumption.
  cbn [get].
  rewrite (or_falsy JUndefined) by reflexivity.
  rewrite (or_falsy (raw @? "status")) by assumption.
  rewrite (or_falsy (raw @? "solution")) by assumption.
  rewrite (or_falsy (raw @? "result")) by assumption.
  now rewrite !(or_falsy JUndefined) by reflexivity.
Qed.

End NormalizerFacts.

Module NormalizerTheorems.
Import Js Service Spec JsFacts NormalizerFacts.
Local Open Scope js_scope.

(** C3, as the code has it. The normalised status is the first truthy
    value among: the status of the JSON value parsed from the output text,
    the response's direct status, the nested [result] object's status, the
    nested [solution] object's status; failing all four it is OPTIMAL when
    the parsed JSON value is truthy and UNKNOWN otherwise. *)
Theorem C3_status_priority_order :
  forall (H : Host) (raw : value) (t : Z),
    status (normalize H raw t) = spec_status_amended H raw.
Proof.
  intros H raw t.
  unfold normalize, spec_status_amended, extract_status; cbn [status first_truthy].
  destruct (truthy (parsed_output H raw @? "status")) eqn:H1;
    [now rewrite !or_truthy by (rewrite ?truthy_or, ?H1; reflexivity) |].
  rewrite (or_falsy _ _ H1).
  destruct (truthy (raw @? "status")) eqn:H2;
    [now rewrite !or_truthy by (rewrite ?truthy_or, ?H2; reflexivity) |].
  rewrite (or_falsy _ _ H2).
  destruct (truthy (raw @? "result" @? "status")) eqn:H3;
    [now rewrite !or_truthy by (rewrite ?truthy_or, ?H3; reflexivity) |].
  rewrite (or_falsy _ _ H3).
  destruct (truthy (raw @? "solution" @? "status")) eqn:H4;
    [now rewrite !or_truthy by (rewrite ?truthy_or, ?H4; reflexivity) |].
  now rewrite (or_falsy _ _ H4).
Qed.

(** C3 fails as stated: the nested [result] object's status is a source
    too, consulted before the nested solution status. On
    [{ result: { status: 'SATISFIED' }, solution: { status: 'OPTIMAL' } }]
    the code answers SATISFIED where the stated order answers OPTIMAL. *)
Lemma C3_counterexample_result_status :
  status (normalize node_host response_with_result_status 0) = JStr "SATISFIED" /\
  spec_status node_host response_with_result_status = JStr "OPTIMAL" /\
  status (normalize node_host response_with_result_status 0)
  <> spec_status node_host response_with_result_status.
Proof.
  repeat split; try (vm_compute; reflexivity).
  vm_compute. discriminate.
Qed.

(** C4. The engine's status reaches the result unchecked: on
    [{ status: 'OPTIMAL_SOLUTION' }] the normalised status is
    OPTIMAL_SOLUTION, which is none of the five declared values. *)
Theorem C4_sixth_status_surfaced :
  forall (H : Host) (t : Z),
    status (normalize H response_optimal_solution t) = JStr "OPTIMAL_SOLUTION" /\
    ~ In (status (normalize H response_optimal_solution t)) status_vocabulary.
Proof.
  intros H t.
  assert (Hs : status (normalize H response_optimal_solution t) = JStr "OPTIMAL_SOLUTION")
    by reflexivity.
  split; [exact Hs |].
  rewrite Hs. unfold status_vocabulary.
  intros [Hin | [Hin | [Hin | [Hin | [Hin | []]]]]]; discriminate.
Qed.

End NormalizerTheorems.

Module IdempotenceTheorems.
Import Js Service Spec JsFacts NormalizerFacts.
Local Open Scope js_scope.

(** C9, as the code has it. Feeding a normalised result back as a response
    reproduces its status, solution and statistics whenever the normalised
    solution holds no further solution data for the normaliser to unwrap:
    no output text that parses as JSON, no truthy [output.json] and no
    truthy [solution] property. *)
Theorem C9_renormalize_flat_solution :
  forall (H : Host) (raw : value) (t t' : Z),
    let n := normalize H raw t in
    let n' := normalize H (as_response n) t' in
    parsed_output H (as_response n) = JNull ->
    truthy (solution n @? "output" @? "json") = false ->
    truthy (solution n @? "solution") = false ->
    status n' = status n /\ solution n' = solution n /\
    statistics n' = statistics n.
Proof.
  intros H raw t t' n n' Hparsed Hjson Hnested.
  subst n'. unfold normalize; cbn [status solution statistics].
  rewrite Hparsed.
  unfold extract_status, extract_solution, extract_statistics.
  replace (as_response n @? "status") with (status n) by reflexivity.
  replace (as_response n @? "solution") with (solution n) by reflexivity.
  replace (as_response n @? "statistics") with (statistics n) by reflexivity.
  replace (as_response n @? "result") with JUndefined by reflexivity.
  cbn [get]. rewrite !(or_falsy JUndefined) by reflexivity.
  rewrite (or_falsy _ _ Hjson), (or_falsy _ _ Hnested).
  repeat split.
  - assert (Hstatus : truthy (status n) = true)
      by (unfold n, normalize; cbn [status]; apply extract_status_truthy).
    now rewrite !(or_truthy (status n)) by exact Hstatus.
  - destruct (truthy (solution n)) eqn:Hsol.
    + now rewrite !or_truthy by (rewrite ?truthy_or, ?Hsol; reflexivity).
    + unfold n, normalize in Hsol |- *; cbn [solution] in Hsol |- *.
      now rewrite (extract_solution_null _ _ Hsol).
  - destruct (truthy (statistics n)) eqn:Hst.
    + now rewrite !or_truthy by (rewrite ?truthy_or, ?Hst; reflexivity).
    + unfold n, normalize in Hst |- *; cbn [statistics] in Hst |- *.
      now rewrite (extract_statistics_null _ _ Hst).
Qed.

Lemma C9_renormalize_flat_solution_witness :
  status (normalize node_host
            (as_response (normalize node_host response_assignment 5)) 7)
  = JStr "OPTIMAL".
Proof.
  apply (C9_renormalize_flat_solution node_host response_assignment 5 7);
    reflexivity.
Defined.

(** C9 fails as stated: on [{ solution: { solution: { solution: 1 } } }] the
    first pass keeps [{ solution: 1 }] as the solution and the second pass
    unwraps it once more, to [1]. *)
Lemma C9_counterexample_nested_solution :
  ~ idempotent_at node_host response_nested_solution.
Proof.
  intros Hclaim. destruct (Hclaim 0 0) as (_ & Hsol & _).
  vm_compute in Hsol. discriminate.
Qed.

End IdempotenceTheorems.

Module SolveFacts.
Import Js Service Spec.

Lemma invocations_after_init (s s' : MiniZincService) (cs : list Event)
      (o : InitOptions) (c c' : nat) :
  solve_invocations (mkWorld s' (cs ++ [CalledInit o]) c')
  = solve_invocations (mkWorld s cs c).
Proof.
  unfold solve_invocations; cbn [calls].
  rewrite filter_app, length_app. cbn. lia.
Qed.

Lemma invocations_after_solve (s s' : MiniZincService) (cs : list Event)
      (r : SolveRequest) (c c' : nat) :
  solve_invocations (mkWorld s' (cs ++ [CalledSolve r]) c')
  = S (solve_invocations (mkWorld s cs c)).
Proof.
  unfold solve_invocations; cbn [calls].
  rewrite filter_app, length_app. cbn. lia.
Qed.

(** The world in which [solve] reaches the engine: initialised, with the
    call to the engine's [init] recorded when it had to be made. *)
Lemma solve_reaches_engine (H : Host) (w : World) (modelCode : string)
      (data : Utils.ModelData) (config : SolverConfig) (modelFilename : string) :
  init_succeeds H w ->
  (mode (this w) = browser -> includes wasmSolvers (solver config) = true) ->
  exists (cs : list Event) (c : nat),
    let ready := mkService (mode (this w)) true in
    let req := request_of modelCode data config modelFilename in
    solve_invocations (mkWorld ready cs c) = solve_invocations w /\
    solve H modelCode data config modelFilename w =
    match Model_solve H req with
    | inr raw =>
        (inr (normalize H raw (Date_now H (S c) - Date_now H c)),
         mkWorld ready (cs ++ [CalledSolve req]) (S (S c)))
    | inl e =>
        (match error_message H e with
         | inr m => inr (mkSolverResult (JStr "ERROR") JNull JNull
                                        (Date_now H (S c) - Date_now H c) (Some m))
         | inl e' => inl e'
         end,
         mkWorld ready (cs ++ [CalledSolve req]) (S (S c)))
    end.
Proof.
  destruct w as [[m ini] cs ck]. unfold init_succeeds, request_of.
  cbn [this mode initialized]. intros Hinit Hcap.
  cbv [solve init call_init call_solve of_outcome now try_catch bind read_this
       ret throw record set_initialized isSolverAvailable].
  cbn [this mode initialized calls clock negb andb].
  destruct ini; cbn [negb].
  - exists cs, ck. split; [reflexivity |].
    destruct m; cbn [andb negb].
    + rewrite (Hcap eq_refl). cbn [negb].
      destruct (Model_solve H _) as [e | raw]; [| reflexivity].
      now destruct (error_message H e).
    + destruct (Model_solve H _) as [e | raw]; [| reflexivity].
      now destruct (error_message H e).
  - destruct Hinit as [Hinit | Hinit]; [discriminate |].
    destruct m; cbn [default_init_options] in Hinit;
      cbn [field_or Utils.or_default is_empty];
      rewrite Hinit; cbn [this mode initialized calls clock negb andb].
    + eexists _, ck. split; [apply invocations_after_init |].
      rewrite (Hcap eq_refl). cbn [negb].
      destruct (Model_solve H _) as [e | raw]; [| reflexivity].
      now destruct (error_message H e).
    + eexists _, ck. split; [apply invocations_after_init |].
      destruct (Model_solve H _) as [e | raw]; [| reflexivity].
      now destruct (error_message H e).
Qed.

End SolveFacts.

Module SolveTheorems.
Import Js Service Spec NormalizerFacts SolveFacts.

(** C1, as the code has it. The capability check of [solve] guards the
    browser only. In the browser, a solve call whose solver is none of
    gecode, chuffed, cbc is rejected without any solve invocation on the
    engine, and when initialisation succeeds the rejection is the
    not-available error. In node no solver id is rejected by the check:
    once initialisation succeeds the engine is asked to solve exactly
    once, whatever the solver id. *)
Theorem C1_capability_check_guards_browser :
  forall (H : Host) (w : World) (modelCode : string) (data : Utils.ModelData)
         (config : SolverConfig) (modelFilename : string),
    (mode (this w) = browser ->
     includes wasmSolvers (solver config) = false ->
     exists e w',
       solve H modelCode data config modelFilename w = (inl e, w') /\
       solve_invocations w' = solve_invocations w /\
       (init_succeeds H w ->
        e = ErrorObject (unavailable_message (solver config)))) /\
    (mode (this w) = node ->
     init_succeeds H w ->
     exists outcome w',
       solve H modelCode data config modelFilename w = (outcome, w') /\
       solve_invocations w' = S (solve_invocations w)).
Proof.
  intros H w modelCode data config modelFilename. split.
  - destruct w as [[m ini] cs ck]. cbn [this mode]. intros -> Hsolver.
    unfold init_succeeds.
    cbv [solve init call_init bind read_this ret throw record set_initialized
         isSolverAvailable].
    cbn [this mode initialized calls clock negb andb].
    destruct ini; cbn [negb].
    + rewrite Hsolver. cbn [negb andb]. eexists _, _. now repeat split.
    + cbn [field_or default_init_options Utils.or_default is_empty].
      destruct (MiniZinc_init H _) as [e |];
        cbn [this mode initialized calls clock negb andb].
      * eexists _, _. split; [reflexivity |]. split.
        -- apply invocations_after_init.
        -- intros [Hini | Hini]; discriminate.
      * rewrite Hsolver. cbn [negb andb]. eexists _, _.
        split; [reflexivity |]. split; [apply invocations_after_init | reflexivity].
  - intros Hmode Hinit.
    destruct (solve_reaches_engine H w modelCode data config modelFilename Hinit)
      as (cs & c & Hsame & Hrun).
    + rewrite Hmode. discriminate.
    + cbv zeta in Hsame, Hrun. rewrite Hrun, <- Hsame.
      destruct (Model_solve H _); eexists _, _;
        (split; [reflexivity | apply invocations_after_solve]).
Qed.

Lemma C1_capability_check_guards_browser_witness :
  (exists w',
      solve browser_host model_code roster_data (config_for "cp-sat") "model.mzn"
            (fresh_world browser_host)
      = (inl (ErrorObject (unavailable_message "cp-sat")), w') /\
      solve_invocations w' = 0%nat) /\
  (exists outcome w',
      solve node_host model_code roster_data (config_for "gecode") "model.mzn"
            (fresh_world node_host)
      = (outcome, w') /\
      solve_invocations w' = 1%nat).
Proof.
  split.
  - destruct (C1_capability_check_guards_browser
                browser_host (fresh_world browser_host) model_code roster_data
                (config_for "cp-sat") "model.mzn") as [Hbrowser _].
    destruct (Hbrowser eq_refl eq_refl) as (e & w' & Hrun & Hcount & Herr).
    exists w'. rewrite Hrun, Hcount, Herr; [now split | right; reflexivity].
  - destruct (C1_capability_check_guards_browser
                node_host (fresh_world node_host) model_code roster_data
                (config_for "gecode") "model.mzn") as [_ Hnode].
    destruct (Hnode eq_refl (or_intror eq_refl)) as (outcome & w' & Hrun & Hcount).
    exists outcome, w'. now split.
Defined.

(** C1 fails as stated in node: gecode is not among the node service's
    available solvers, yet [solve] does not reject it and the engine is
    asked to solve. *)
Lemma C1_counterexample_gecode_in_node :
  includes (getAvailableSolvers node_host (this (fresh_world node_host))) "gecode"
  = false /\
  solve_invocations
    (snd (solve node_host model_code roster_data (config_for "gecode") "model.mzn"
                (fresh_world node_host))) = 1%nat /\
  ~ rejects_unsupported node_host (fresh_world node_host) (config_for "gecode").
Proof.
  repeat split; try (vm_compute; reflexivity).
  intros Hclaim.
  destruct (Hclaim eq_refl model_code roster_data "model.mzn") as (e & w' & Hrun & _).
  vm_compute in Hrun. discriminate.
Qed.

(** C2, as the code has it. Once [solve] is past initialisation and the
    capability check, it returns a result. When the engine answers, the
    result is the normalised answer, and an answer with nothing
    recognisable in it gives status UNKNOWN and a [null] solution. When the
    engine throws a value whose message the [catch] block can format (an
    [Error], a string, or anything but an object carrying its own
    non-callable [toString] and no string message), the result has status
    ERROR, [null] solution and statistics, and that message, which may be
    empty. *)
Theorem C2_solve_failures_folded :
  forall (H : Host) (w : World) (modelCode : string) (data : Utils.ModelData)
         (config : SolverConfig) (modelFilename : string),
    init_succeeds H w ->
    (mode (this w) = browser -> includes wasmSolvers (solver config) = true) ->
    match Model_solve H (request_of modelCode data config modelFilename) with
    | inr raw =>
        exists t w',
          solve H modelCode data config modelFilename w
          = (inr (normalize H raw t), w') /\
          (unrecognizable H raw ->
           status (normalize H raw t) = JStr "UNKNOWN" /\
           solution (normalize H raw t) = JNull)
    | inl e =>
        forall m,
          error_message H e = inr m ->
          exists t w',
            solve H modelCode data config modelFilename w
            = (inr (mkSolverResult (JStr "ERROR") JNull JNull t (Some m)), w')
    end.
Proof.
  intros H w modelCode data config modelFilename Hinit Hcap.
  destruct (solve_reaches_engine H w modelCode data config modelFilename Hinit Hcap)
    as (cs & c & _ & Hrun).
  cbv zeta in Hrun. rewrite Hrun.
  destruct (Model_solve H _) as [e | raw].
  - intros m Hm. rewrite Hm. now eexists _, _.
  - eexists _, _. split; [reflexivity |].
    apply unrecognizable_normalize.
Qed.

Lemma C2_solve_failures_folded_witness :
  exists t w',
    solve node_host_boom model_code roster_data (config_for "cbc") "model.mzn"
          (fresh_world node_host_boom)
    = (inr (mkSolverResult (JStr "ERROR") JNull JNull t (Some "boom")), w').
Proof.
  apply (C2_solve_failures_folded
           node_host_boom (fresh_world node_host_boom) model_code roster_data
           (config_for "cbc") "model.mzn").
  - right; reflexivity.
  - discriminate.
  - reflexivity.
Defined.

(** C2 fails as stated on the error message: when the engine throws
    [new Error('')] the result is an ERROR result whose message is the
    empty string. *)
Lemma C2_counterexample_empty_message :
  fst (solve node_host_empty_error model_code roster_data (config_for "cbc") "model.mzn"
             (fresh_world node_host_empty_error))
  = inr (mkSolverResult (JStr "ERROR") JNull JNull 1 (Some EmptyString)) /\
  ~ error_has_message node_host_empty_error (fresh_world node_host_empty_error)
      model_code roster_data (config_for "cbc") "model.mzn".
Proof.
  split; [vm_compute; reflexivity |].
  intros Hclaim.
  destruct (Hclaim (ErrorObject EmptyString) eq_refl)
    as (r & w' & Hrun & _ & _ & m & Hm & Hnonempty).
  vm_compute in Hrun. inversion Hrun; subst r.
  cbn in Hm. inversion Hm. congruence.
Qed.

End SolveTheorems.

(* ================================================================== *)
(** * Further properties of [src/shared/utils.ts] *)

Module DecimalFacts.
Import Notions.

Lemma digits_prefix_uint (d : Decimal.uint) (s : string) :
  forall a : Z,
    digits_prefix (Some a) (NilEmpty.string_of_uint d ++ s)%string
    = digits_prefix (Some (uint_after d a)) s.
Proof.
  induction d; intros a; cbn [NilEmpty.string_of_uint String.append uint_after];
    try reflexivity.
  all: cbn [digits_prefix]; eval_digit; cbv iota; rewrite IHd;
    try reflexivity; do 3 f_equal; lia.
Qed.

Lemma digits_prefix_uint_start (d : Decimal.uint) (s : string) :
  d <> Decimal.Nil ->
  digits_prefix None (NilEmpty.string_of_uint d ++ s)%string
  = digits_prefix (Some (uint_after d 0)) s.
Proof.
  destruct d; intros Hd; [congruence | ..];
    cbn [NilEmpty.string_of_uint String.append uint_after digits_prefix];
    eval_digit; cbv iota; rewrite digits_prefix_uint;
    try reflexivity; do 3 f_equal; lia.
Qed.

Lemma of_uint_acc_after (d : Decimal.uint) :
  forall p : positive, Z.pos (Pos.of_uint_acc d p) = uint_after d (Z.pos p).
Proof.
  induction d; intros p; cbn [Pos.of_uint_acc uint_after]; try reflexivity;
    rewrite IHd; f_equal; lia.
Qed.

Lemma of_uint_after (d : Decimal.uint) : Z.of_uint d = uint_after d 0.
Proof.
  unfold Z.of_uint.
  induction d; cbn [Pos.of_uint uint_after Z.of_N]; try reflexivity;
    try (rewrite of_uint_acc_after; f_equal; lia).
  exact IHd.
Qed.

Lemma to_uint_not_Nil (p : positive) : Pos.to_uint p <> Decimal.Nil.
Proof.
  intros Hnil. pose proof (DecimalZ.of_to (Z.pos p)) as Hback.
  cbn [Z.to_int Z.of_int] in Hback. rewrite Hnil in Hback. discriminate.
Qed.

(** After the digits, anything that does not start with a digit stops the
    reading. *)
Lemma digits_prefix_stops (v : Z) (s : string) :
  no_leading_digit s -> digits_prefix (Some v) s = Some v.
Proof.
  destruct s as [| c s]; cbn; [reflexivity |]. now intros ->.
Qed.

Lemma trimStart_digits (d : Decimal.uint) (s : string) :
  d <> Decimal.Nil ->
  exists c r, (NilEmpty.string_of_uint d ++ s)%string = String c r /\
              is_ws c = false /\ c <> "-"%char /\ c <> "+"%char.
Proof.
  destruct d; intros Hd; [congruence | ..];
    cbn [NilEmpty.string_of_uint String.append];
    eexists _, _; (split; [reflexivity |]); repeat split; discriminate.
Qed.

(** An unsigned run of digits followed by a non-digit. *)
Lemma parseInt_string_unsigned (d : Decimal.uint) (rest : string) :
  d <> Decimal.Nil ->
  no_leading_digit rest ->
  parseInt_string (NilEmpty.string_of_uint d ++ rest)%string
  = Some (uint_after d 0).
Proof.
  intros Hd Hrest. unfold parseInt_string.
  destruct (trimStart_digits d rest Hd) as (c & r & Heq & Hws & Hminus & Hplus).
  assert (Hdigits : digits_prefix None (NilEmpty.string_of_uint d ++ rest)%string
                    = Some (uint_after d 0)).
  { rewrite digits_prefix_uint_start by assumption.
    now apply digits_prefix_stops. }
  rewrite Heq in *. cbn [trimStart]. rewrite Hws.
  destruct c as [[] [] [] [] [] [] [] []]; try exact Hdigits; congruence.
Qed.

End DecimalFacts.

Module ParseIntFacts.
Import Notions DecimalFacts.

(** [parseInt] reads back the decimal rendering of any integer, and ignores
    whatever follows it as long as that does not start with a digit. *)
Lemma parseInt_decimal_prefix (n : Z) (rest : string) :
  no_leading_digit rest ->
  parseInt (Some (of_Z n ++ rest)%string) = Some n.
Proof.
  intros Hrest. unfold parseInt, of_Z.
  pose proof (DecimalZ.of_to n) as Hback.
  destruct n as [| p | p]; cbn [Z.to_int NilEmpty.string_of_int Z.of_int] in *.
  - rewrite parseInt_string_unsigned; [reflexivity | discriminate | assumption].
  - rewrite parseInt_string_unsigned;
      [| apply to_uint_not_Nil | assumption].
    now rewrite <- of_uint_after, Hback.
  - unfold parseInt_string.
    cbn [String.append trimStart]. change (is_ws "-") with false. cbv iota.
    rewrite digits_prefix_uint_start by apply to_uint_not_Nil.
    rewrite digits_prefix_stops by assumption.
    cbn [option_map]. rewrite <- of_uint_after. f_equal. lia.
Qed.

End ParseIntFacts.

Module ParseIntTheorems.
Import Utils Spec Notions ParseIntFacts.

(** X1. A data row with at least two cells whose rating cell, once
    trimmed, is an integer of magnitude at most 2^53 in decimal, followed by
    anything that does not start with a digit, adds exactly one player, with
    that integer as rating: 8.5 and 8abc are read as 8. *)
Theorem X1_rating_read_from_decimal_prefix :
  forall (nameIdx ratingIdx positionIdx i : Z) (raw : string) (acc : Arrays)
         (cell : string) (n : Z) (rest : string),
    (2 <= List.length (cells raw))%nat ->
    at_index (cells raw) ratingIdx = Some cell ->
    exact_integer n ->
    trim cell = (of_Z n ++ rest)%string ->
    no_leading_digit rest ->
    exists p : Player,
      rating p = n /\
      parseCSV_row nameIdx ratingIdx positionIdx i raw acc
      = mkArrays (a_players acc ++ [p]) (a_ratings acc ++ [n])
                 (a_positions acc ++ [position p])
                 (a_positionIndices acc ++ [position_index (position p)]).
Proof.
  intros nameIdx ratingIdx positionIdx i raw acc cell n rest
         Hcells Hcell _ Htrim Hrest.
  unfold parseCSV_row. unfold cells in *.
  assert (Hrating : parseInt (opt_trim (at_index (split "," (trim raw)) ratingIdx))
                    = Some n).
  { rewrite Hcell. unfold opt_trim. cbn [option_map]. rewrite Htrim.
    now apply parseInt_decimal_prefix. }
  destruct (is_empty (trim raw)) eqn:Hline.
  - exfalso. destruct (trim raw); [cbn in Hcells; lia | discriminate].
  - destruct (Z.leb_spec 2 (Z.of_nat (List.length (split "," (trim raw)))))
      as [_ | Hshort]; [| lia].
    rewrite Hrating. eexists (mkPlayer _ n _). split; reflexivity.
Qed.

Lemma X1_rating_read_from_decimal_prefix_witness :
  exists p : Player,
    rating p = 8 /\
    parseCSV_row 0 1 2 1 "Alice,8.5,forward" no_arrays
    = mkArrays [p] [8] [position p] [position_index (position p)].
Proof.
  apply (X1_rating_read_from_decimal_prefix 0 1 2 1 "Alice,8.5,forward" no_arrays
                                            "8.5" 8 ".5").
  - vm_compute. lia.
  - reflexivity.
  - unfold exact_integer, MAX_EXACT. lia.
  - reflexivity.
  - vm_compute. reflexivity.
Defined.

End ParseIntTheorems.

Module CaseFacts.

Lemma lower_char_idempotent (c : ascii) : lower_char (lower_char c) = lower_char c.
Proof. destruct c as [[] [] [] [] [] [] [] []]; reflexivity. Qed.

Lemma toLowerCase_idempotent (s : string) :
  toLowerCase (toLowerCase s) = toLowerCase s.
Proof.
  induction s as [| c s IH]; cbn; [reflexivity |].
  now rewrite lower_char_idempotent, IH.
Qed.

Lemma toLowerCase_empty (s : string) :
  is_empty (toLowerCase s) = is_empty s.
Proof. now destruct s. Qed.

End CaseFacts.

Module PayloadFacts.
Import Utils Spec ParseProps CaseFacts.

Lemma indexOf_from_found (l : list string) (x : string) :
  forall i : Z, 0 <= i -> indexOf_from i l x <> -1 -> In x l.
Proof.
  induction l as [| y l IH]; intros i Hi; cbn [indexOf_from]; [congruence |].
  destruct (String.eqb_spec y x) as [-> | _]; [now left |].
  intros Hfound. right. apply (IH (i + 1)); [lia | assumption].
Qed.

Lemma or_default_not_empty (x : option string) (d : string) :
  is_empty d = false -> is_empty (or_default x d) = false.
Proof.
  intros Hd. unfold or_default.
  destruct x as [s |]; [| assumption].
  now destruct (is_empty s) eqn:Hs.
Qed.

(** What a row can contribute: nothing, or one player with a name, a
    lower-case position, and its entries in the other arrays. *)
Lemma row_contribution (nameIdx ratingIdx positionIdx i : Z) (raw : string) :
  row_arrays nameIdx ratingIdx positionIdx i raw = no_arrays \/
  exists p,
    row_arrays nameIdx ratingIdx positionIdx i raw
    = mkArrays [p] [rating p] [position p] [position_index (position p)] /\
    is_empty (Utils.name p) = false /\
    is_empty (position p) = false /\
    toLowerCase (position p) = position p /\
    rating_of_row ratingIdx raw = Some (rating p).
Proof.
  unfold row_arrays, parseCSV_row, rating_of_row, cells.
  destruct (is_empty (trim raw)); [now left |].
  destruct (2 <=? _); [| now left].
  destruct (parseInt _) as [r |]; [| now left].
  right. eexists (mkPlayer _ r _). split; [reflexivity |].
  cbn [Utils.name position rating]. repeat split.
  - now apply or_default_not_empty.
  - now apply or_default_not_empty.
  - destruct (negb (positionIdx =? -1)); [| reflexivity].
    destruct (opt_trim (at_index (split "," (trim raw)) positionIdx)) as [cell |];
      [| reflexivity].
    cbn [option_map or_default]. rewrite toLowerCase_empty.
    destruct (is_empty cell); [reflexivity | apply toLowerCase_idempotent].
Qed.

(** A property of every contributed player holds of every player of the
    concatenated contributions. *)
Lemma contributed_players (nameIdx ratingIdx positionIdx : Z) (P : Player -> Prop) :
  (forall i raw p,
      In p (a_players (row_arrays nameIdx ratingIdx positionIdx i raw)) -> P p) ->
  forall (rows : list string) (i : Z) (p : Player),
    In p (flat_map (fun ir => a_players (row_arrays nameIdx ratingIdx positionIdx
                                                   (fst ir) (snd ir)))
                   (indexed i rows)) ->
    P p.
Proof.
  intros Hrow rows i p Hin. apply in_flat_map in Hin as ((j & raw) & _ & Hp).
  now apply (Hrow j raw).
Qed.

Lemma contributions_bounded (nameIdx ratingIdx positionIdx : Z) :
  forall (rows : list string) (i : Z),
    (List.length (flat_map (fun ir => a_players (row_arrays nameIdx ratingIdx positionIdx
                                                           (fst ir) (snd ir)))
                           (indexed i rows))
     <= List.length rows)%nat.
Proof.
  induction rows as [| raw rows IH]; intros i; cbn [indexed flat_map List.length];
    [lia |].
  rewrite length_app. specialize (IH (i + 1)). cbn [fst snd].
  destruct (row_contribution nameIdx ratingIdx positionIdx i raw) as [-> | (p & -> & _)];
    cbn [a_players no_arrays List.length]; lia.
Qed.

Lemma accepted_has_players (csvText : string) (data : ModelData) :
  parseCSV csvText = inr data -> 1 <= num_players data.
Proof.
  unfold parseCSV.
  destruct (split _ (trim csvText)) as [| header [| row rows]]; try discriminate.
  destruct (_ || _); [discriminate |].
  match goal with
  | |- context [Nat.eqb ?n 0] => destruct n as [| k]; [discriminate |]
  end.
  cbn [Nat.eqb]. intros [= <-]. cbn [num_players]. lia.
Qed.

(** The fields of a parsed player: a name, a position, in lower case. *)
Lemma parsed_player_fields :
  forall (csvText : string) (data : ModelData) (p : Player),
    parseCSV csvText = inr data ->
    In p (players data) ->
    Utils.name p <> EmptyString /\
    position p <> EmptyString /\
    toLowerCase (position p) = position p.
Proof.
  intros csvText data p Hparse Hin.
  destruct (parseCSV_accepted _ _ Hparse) as (header & rows & _ & Hdata).
  cbv zeta in Hdata. destruct Hdata as (_ & _ & ->). cbn [players] in Hin.
  destruct (parseCSV_loop_appends
              (indexOf (headers_of header) "name")
              (indexOf (headers_of header) "rating")
              (indexOf (headers_of header) "position") rows 1 no_arrays)
    as (Hp & _).
  cbn [no_arrays a_players app] in Hp. rewrite Hp in Hin.
  refine (contributed_players _ _ _
            (fun q => Utils.name q <> EmptyString /\
                      position q <> EmptyString /\
                      toLowerCase (position q) = position q)
            _ rows 1 p Hin).
  clear. intros i raw p Hin.
  destruct (row_contribution (indexOf (headers_of header) "name")
                             (indexOf (headers_of header) "rating")
                             (indexOf (headers_of header) "position") i raw)
    as [Hnone | (q & Hq & Hname & Hpos & Hlow & _)].
  - rewrite Hnone in Hin. destruct Hin.
  - rewrite Hq in Hin. destruct Hin as [<- | []].
    repeat split; try assumption.
    + intros Heq. now rewrite Heq in Hname.
    + intros Heq. now rewrite Heq in Hpos.
Qed.

End PayloadFacts.

Module PayloadTheorems.
Import Utils Spec ParseProps ParseFacts PayloadFacts.

(** X2. A payload that [parseCSV] returns is never empty: it has at least
    one player, its header names both a [name] and a [rating] column, and it
    never has more players than the text has data rows. *)
Theorem X2_parseCSV_payload_bounds :
  forall (csvText : string) (data : ModelData),
    parseCSV csvText = inr data ->
    1 <= num_players data /\
    exists header rows,
      lines_of csvText = header :: rows /\
      In "name" (headers_of header) /\
      In "rating" (headers_of header) /\
      (List.length (players data) <= List.length rows)%nat.
Proof.
  intros csvText data Hparse.
  pose proof (accepted_has_players _ _ Hparse) as Hcount.
  destruct (parseCSV_accepted _ _ Hparse) as (header & rows & Hlines & Hdata).
  cbv zeta in Hdata. destruct Hdata as (Hname & Hrating & Hpayload).
  split; [assumption |].
  - exists header, rows. repeat split; try assumption.
    + now apply (indexOf_from_found _ _ 0).
    + now apply (indexOf_from_found _ _ 0).
    + rewrite Hpayload. cbn [players].
      destruct (parseCSV_loop_appends
                  (indexOf (headers_of header) "name")
                  (indexOf (headers_of header) "rating")
                  (indexOf (headers_of header) "position") rows 1 no_arrays)
        as (Hp & _).
      cbn [no_arrays a_players app] in Hp. rewrite Hp.
      apply contributions_bounded.
Qed.

Lemma X2_parseCSV_payload_bounds_witness :
  1 <= num_players roster_data.
Proof.
  apply (X2_parseCSV_payload_bounds roster_csv roster_data).
  vm_compute; reflexivity.
Defined.

(** X3. Every player that [parseCSV] returns has a non-empty name and a
    non-empty position, and the position is already in lower case. *)
Theorem X3_parsed_players_named_and_placed :
  forall (csvText : string) (data : ModelData) (p : Player),
    parseCSV csvText = inr data ->
    In p (players data) ->
    Utils.name p <> EmptyString /\
    position p <> EmptyString /\
    toLowerCase (position p) = position p.
Proof.
  intros csvText data p Hparse Hin.
  now apply (parsed_player_fields csvText data p).
Qed.

Lemma X3_parsed_players_named_and_placed_witness :
  position alice <> EmptyString.
Proof.
  apply (X3_parsed_players_named_and_placed roster_csv roster_data alice).
  - vm_compute; reflexivity.
  - now left.
Defined.

End PayloadTheorems.

Module TotalFacts.
Import Utils.

Lemma total_from (l : list Player) :
  forall a : Z, fold_left (fun sum p => sum + rating p) l a = a + calculateTotalRating l.
Proof.
  unfold calculateTotalRating.
  induction l as [| p l IH]; intros a; cbn [fold_left]; [lia |].
  rewrite (IH (a + rating p)), (IH (0 + rating p)). lia.
Qed.

Lemma total_cons (p : Player) (l : list Player) :
  calculateTotalRating (p :: l) = rating p + calculateTotalRating l.
Proof.
  unfold calculateTotalRating at 1. cbn [fold_left]. rewrite total_from. lia.
Qed.

Lemma total_app (l1 l2 : list Player) :
  calculateTotalRating (l1 ++ l2) = calculateTotalRating l1 + calculateTotalRating l2.
Proof.
  induction l1 as [| p l1 IH]; [reflexivity |].
  cbn [app]. rewrite !total_cons, IH. lia.
Qed.

Lemma total_permutation (l l' : list Player) :
  Permutation l l' -> calculateTotalRating l = calculateTotalRating l'.
Proof.
  induction 1 as [| p l l' _ IH | p q l | l l' l'' _ IH1 _ IH2];
    rewrite ?total_cons; lia.
Qed.

Lemma sum_from (l : list Z) :
  forall a : Z, fold_left Z.add l a = a + fold_left Z.add l 0.
Proof.
  induction l as [| x l IH]; intros a; cbn [fold_left]; [lia |].
  rewrite (IH (a + x)), (IH (0 + x)). lia.
Qed.

Lemma total_of_ratings (l : list Player) :
  calculateTotalRating l = fold_left Z.add (map rating l) 0.
Proof.
  induction l as [| p l IH]; [reflexivity |].
  rewrite total_cons. cbn [map fold_left]. rewrite sum_from, IH. lia.
Qed.

End TotalFacts.

Module CountFacts.
Import Utils Display Notions.

Lemma add_counts_assoc (a b c : PositionCounts) :
  add_counts (add_counts a b) c = add_counts a (add_counts b c).
Proof. unfold add_counts; cbn. f_equal; lia. Qed.

Lemma add_counts_comm (a b : PositionCounts) :
  add_counts a b = add_counts b a.
Proof. unfold add_counts. f_equal; lia. Qed.

Lemma add_no_counts (a : PositionCounts) : add_counts no_counts a = a.
Proof. destruct a. reflexivity. Qed.

(** A step adds the player's own contribution to the counters. *)
Lemma step_adds (c : PositionCounts) (p : Player) :
  countPositions_step c p = add_counts c (countPositions_step no_counts p).
Proof.
  destruct c as [f m d u]. unfold countPositions_step, add_counts.
  repeat match goal with
         | |- context [if ?b then _ else _] => destruct b
         end; cbn; f_equal; lia.
Qed.

Lemma count_from (l : list Player) :
  forall c : PositionCounts,
    fold_left countPositions_step l c = add_counts c (countPositions l).
Proof.
  unfold countPositions.
  induction l as [| p l IH]; intros c; cbn [fold_left].
  - destruct c. unfold add_counts; cbn. f_equal; lia.
  - rewrite (IH (countPositions_step c p)), (IH (countPositions_step no_counts p)).
    rewrite (step_adds c p). apply add_counts_assoc.
Qed.

Lemma count_cons (p : Player) (l : list Player) :
  countPositions (p :: l)
  = add_counts (countPositions_step no_counts p) (countPositions l).
Proof. unfold countPositions at 1. cbn [fold_left]. apply count_from. Qed.

Lemma count_app (l1 l2 : list Player) :
  countPositions (l1 ++ l2) = add_counts (countPositions l1) (countPositions l2).
Proof.
  induction l1 as [| p l1 IH]; cbn [app].
  - now rewrite add_no_counts.
  - now rewrite !count_cons, IH, add_counts_assoc.
Qed.

Lemma count_permutation (l l' : list Player) :
  Permutation l l' -> countPositions l = countPositions l'.
Proof.
  induction 1 as [| p l l' _ IH | p q l | l l' l'' _ IH1 _ IH2].
  - reflexivity.
  - now rewrite !count_cons, IH.
  - rewrite !count_cons, <- !add_counts_assoc.
    now rewrite (add_counts_comm (countPositions_step no_counts q)).
  - congruence.
Qed.

End CountFacts.

Module TeamTotalsTheorems.
Import Utils Spec Display Notions TotalFacts CountFacts ParseProps.

(** The two teams are a rearrangement of the players that were dealt. *)
Lemma teams_permutation (players : list Player) (assignment : list Z) :
  Permutation (fst (splitIntoTeams players assignment)
               ++ snd (splitIntoTeams players assignment))
              (firstn (List.length assignment) players).
Proof.
  unfold splitIntoTeams. change 0 with (Z.of_nat 0).
  rewrite SplitProps.splitIntoTeams_loop_spec. cbn [fst snd skipn app].
  rewrite <- map_app, <- map_fst_combine.
  apply Permutation_map. unfold on_team_b.
  apply (filter_split_permutation on_team_a).
Qed.

(** The team totals of a covering assignment add up to the roster total. *)
Lemma covering_split_total (players : list Player) (assignment : list Z) :
  (List.length players <= List.length assignment)%nat ->
  calculateTotalRating (fst (splitIntoTeams players assignment))
  + calculateTotalRating (snd (splitIntoTeams players assignment))
  = calculateTotalRating players.
Proof.
  intros Hcover. rewrite <- total_app.
  rewrite (total_permutation _ _ (teams_permutation players assignment)).
  now rewrite firstn_all2.
Qed.

(** X4. For a roster whose rating magnitudes add up to at most 2^53,
    splitting loses no rating and counts none twice: the two team totals add
    up to the total of the players that have an assignment entry, which is
    the total of all players when the assignment is at least as long as the
    roster. *)
Theorem X4_split_conserves_total_rating :
  forall (players : list Player) (assignment : list Z),
    exact_ratings players ->
    let teams := splitIntoTeams players assignment in
    calculateTotalRating (fst teams) + calculateTotalRating (snd teams)
    = calculateTotalRating (firstn (List.length assignment) players) /\
    ((List.length players <= List.length assignment)%nat ->
     calculateTotalRating (fst teams) + calculateTotalRating (snd teams)
     = calculateTotalRating players).
Proof.
  intros players assignment _ teams.
  assert (Hsum : calculateTotalRating (fst teams) + calculateTotalRating (snd teams)
                 = calculateTotalRating (firstn (List.length assignment) players)).
  { rewrite <- total_app. apply total_permutation, teams_permutation. }
  split; [exact Hsum |].
  intros Hcover. now rewrite Hsum, firstn_all2.
Qed.

Lemma X4_split_conserves_total_rating_witness :
  calculateTotalRating (fst (splitIntoTeams [alice; bob; charlie; diana] [0; 1; 1; 0]))
  + calculateTotalRating (snd (splitIntoTeams [alice; bob; charlie; diana] [0; 1; 1; 0]))
  = calculateTotalRating [alice; bob; charlie; diana].
Proof.
  apply (X4_split_conserves_total_rating [alice; bob; charlie; diana] [0; 1; 1; 0]).
  - unfold exact_ratings, MAX_EXACT. cbn. lia.
  - cbn. lia.
Defined.

(** X5. For a parsed roster whose rating magnitudes add up to at most
    2^53 and an assignment that covers it, the two team totals add up to
    the sum of the [ratings] array sent to the solver. *)
Theorem X5_team_totals_match_ratings_array :
  forall (csvText : string) (data : ModelData) (assignment : list Z),
    parseCSV csvText = inr data ->
    exact_ratings (players data) ->
    (List.length (players data) <= List.length assignment)%nat ->
    let teams := splitIntoTeams (players data) assignment in
    calculateTotalRating (fst teams) + calculateTotalRating (snd teams)
    = fold_left Z.add (ratings data) 0.
Proof.
  intros csvText data assignment Hparse _ Hcover teams.
  unfold teams. rewrite (covering_split_total (players data) assignment Hcover).
  destruct (parseCSV_accepted _ _ Hparse) as (header & rows & _ & Hdata).
  cbv zeta in Hdata. destruct Hdata as (_ & _ & Hpayload).
  destruct (parseCSV_loop_aligned
              (indexOf (headers_of header) "name")
              (indexOf (headers_of header) "rating")
              (indexOf (headers_of header) "position")
              rows 1 no_arrays aligned_no_arrays) as (Hr & _ & _).
  rewrite Hpayload. cbn [players ratings].
  now rewrite Hr, <- total_of_ratings.
Qed.

End TeamTotalsTheorems.

Module CountTheorems.
Import Utils Spec Display Notions TotalFacts CountFacts ParseProps CaseFacts
       TeamTotalsTheorems.

Lemma X5_team_totals_match_ratings_array_witness :
  parseCSV roster_csv = inr roster_data /\
  calculateTotalRating (fst (splitIntoTeams (players roster_data) [0; 1; 1; 0]))
  + calculateTotalRating (snd (splitIntoTeams (players roster_data) [0; 1; 1; 0]))
  = fold_left Z.add (ratings roster_data) 0.
Proof.
  split; [vm_compute; reflexivity |].
  apply (X5_team_totals_match_ratings_array roster_csv roster_data [0; 1; 1; 0]).
  - vm_compute; reflexivity.
  - unfold exact_ratings, MAX_EXACT. cbn. lia.
  - cbn. lia.
Defined.

Lemma counters_sum_add (a b : PositionCounts) :
  counters_sum (add_counts a b) = counters_sum a + counters_sum b.
Proof. unfold counters_sum, add_counts; cbn. lia. Qed.

Lemma counters_sum_step (p : Player) :
  counters_sum (countPositions_step no_counts p)
  = if inherits_counted_position p then 0 else 1.
Proof.
  unfold countPositions_step, inherits_counted_position.
  destruct (String.eqb_spec (counted_position p) "forward") as [-> | _];
    [reflexivity |].
  destruct (String.eqb_spec (counted_position p) "midfield") as [-> | _];
    [reflexivity |].
  destruct (String.eqb_spec (counted_position p) "defense") as [-> | _];
    [reflexivity |].
  destruct (String.eqb_spec (counted_position p) "unknown") as [-> | _];
    [reflexivity |].
  now destruct (Constants.inherited_property (counted_position p)).
Qed.

(** X6. The four counters of [countPositions] add up to the number of
    players counted: every player except those whose lower-cased position
    is a name that every object inherits, such as [constructor]. The sum is
    therefore at most the number of players. *)
Theorem X6_countPositions_counts_each_player_once :
  forall players : list Player,
    let counts := countPositions players in
    forward counts + midfield counts + defense counts + unknown counts
    = Z.of_nat (List.length (counted players)) /\
    forward counts + midfield counts + defense counts + unknown counts
    <= Z.of_nat (List.length players).
Proof.
  intros players counts. subst counts.
  fold (counters_sum (countPositions players)).
  assert (Hsum : counters_sum (countPositions players)
                 = Z.of_nat (List.length (counted players))).
  { induction players as [| p players IH]; [reflexivity |].
    rewrite count_cons, counters_sum_add, counters_sum_step, IH.
    unfold counted. cbn [filter].
    destruct (inherits_counted_position p); cbn [negb List.length]; lia. }
  split; [exact Hsum |].
  rewrite Hsum. apply inj_le. unfold counted. apply filter_length_le.
Qed.

(** X7. Position counts are conserved by the split: counter by counter,
    the counts of the two teams add up to the counts of the players that
    have an assignment entry. *)
Theorem X7_split_conserves_position_counts :
  forall (players : list Player) (assignment : list Z),
    let teams := splitIntoTeams players assignment in
    add_counts (countPositions (fst teams)) (countPositions (snd teams))
    = countPositions (firstn (List.length assignment) players).
Proof.
  intros players assignment teams. rewrite <- count_app.
  apply count_permutation, teams_permutation.
Qed.

End CountTheorems.

Module CodeFacts.
Import Utils Spec Display Notions CountFacts.

(** Which code a position gets, name by name. *)
Lemma position_index_cases (s : string) :
  position_index s =
  if String.eqb s "forward" then Some 1
  else if String.eqb s "midfield" then Some 2
  else if String.eqb s "defense" then Some 3
  else if String.eqb s "unknown" then Some 0
  else if Constants.inherited_property s then None
  else Some 0.
Proof.
  unfold position_index. cbn [Constants.own_property Constants.POSITIONS].
  rewrite (String.eqb_sym "forward"), (String.eqb_sym "midfield"),
    (String.eqb_sym "defense"), (String.eqb_sym "unknown").
  repeat match goal with
         | |- context [String.eqb s ?k] => destruct (String.eqb s k)
         end; reflexivity.
Qed.

Lemma step_matches_code (p : Player) :
  counted_position p = position p ->
  countPositions_step no_counts p = code_counts [position_index (position p)].
Proof.
  intros Hpos. unfold countPositions_step. rewrite Hpos, position_index_cases.
  repeat match goal with
         | |- context [String.eqb (position p) ?k] =>
             destruct (String.eqb (position p) k)
         end; try reflexivity.
  now destruct (Constants.inherited_property (position p)).
Qed.

Lemma code_counts_cons (c : option Z) (codes : list (option Z)) :
  code_counts (c :: codes) = add_counts (code_counts [c]) (code_counts codes).
Proof.
  unfold code_counts, add_counts. cbn [filter forward midfield defense unknown].
  destruct (has_code 1 c), (has_code 2 c), (has_code 3 c), (has_code 0 c);
    cbn [List.length]; f_equal; lia.
Qed.

Lemma counts_match_codes (l : list Player) :
  (forall p, In p l -> counted_position p = position p) ->
  countPositions l = code_counts (map (fun p => position_index (position p)) l).
Proof.
  induction l as [| p l IH]; intros Hl; [reflexivity |].
  cbn [map]. rewrite count_cons, code_counts_cons.
  rewrite step_matches_code by (apply Hl; now left).
  rewrite IH by (intros q Hq; apply Hl; now right).
  reflexivity.
Qed.

End CodeFacts.

Module CodeTheorems.
Import Utils Spec Display Notions CountFacts CodeFacts ParseProps PayloadFacts.

(** X8. For a parsed roster the counts shown to the user agree with the
    codes sent to the solver: the forward, midfield, defense and unknown
    counters are the numbers of entries 1, 2, 3 and 0 of
    [position_indices]. *)
Theorem X8_position_counts_agree_with_codes :
  forall (csvText : string) (data : ModelData),
    parseCSV csvText = inr data ->
    let counts := countPositions (players data) in
    forward counts = Z.of_nat (List.length (filter (has_code 1) (position_indices data))) /\
    midfield counts = Z.of_nat (List.length (filter (has_code 2) (position_indices data))) /\
    defense counts = Z.of_nat (List.length (filter (has_code 3) (position_indices data))) /\
    unknown counts = Z.of_nat (List.length (filter (has_code 0) (position_indices data))).
Proof.
  intros csvText data Hparse counts.
  assert (Hcounts : counts = code_counts (position_indices data)).
  { unfold counts.
    rewrite counts_match_codes.
    - f_equal.
      destruct (parseCSV_accepted _ _ Hparse) as (header & rows & _ & Hdata).
      cbv zeta in Hdata. destruct Hdata as (_ & _ & ->).
      cbn [players position_indices]. symmetry.
      apply (parseCSV_loop_aligned _ _ _ rows 1 no_arrays aligned_no_arrays).
    - intros p Hp.
      destruct (parsed_player_fields csvText data p Hparse Hp) as (_ & Hpos & Hlow).
      unfold counted_position. rewrite Hlow. cbn [or_default].
      destruct (position p); [congruence | reflexivity]. }
  rewrite Hcounts. now repeat split.
Qed.

Lemma X8_position_counts_agree_with_codes_witness :
  forward (countPositions (players roster_data)) = 2.
Proof.
  apply (X8_position_counts_agree_with_codes roster_csv roster_data).
  vm_compute; reflexivity.
Defined.

End CodeTheorems.

Module SortFacts.
Import Utils Display Notions.

Section WithCollation.
Variable localeCompare : string -> string -> Z.

Local Abbreviation rank p := (sortOrder_of (position p)).

Lemma compare_le_rank (p q : Player) :
  compare_players localeCompare p q <= 0 -> rank p <= rank q.
Proof.
  unfold compare_players.
  destruct (Z.eqb_spec (rank p) (rank q)) as [-> | Hne]; cbn [negb]; lia.
Qed.

Lemma compare_gt_rank (p q : Player) :
  0 < compare_players localeCompare p q -> rank q <= rank p.
Proof.
  unfold compare_players.
  destruct (Z.eqb_spec (rank p) (rank q)) as [-> | Hne]; cbn [negb]; lia.
Qed.

Lemma insert_player_permutation (p : Player) (l : list Player) :
  Permutation (insert_player localeCompare p l) (p :: l).
Proof.
  induction l as [| q l IH]; cbn [insert_player]; [reflexivity |].
  destruct (compare_players localeCompare p q <=? 0); [reflexivity |].
  rewrite IH. apply perm_swap.
Qed.

Lemma insert_player_head (p q : Player) (l : list Player) :
  rank q <= rank p ->
  HdRel (fun a b => rank a <= rank b) q l ->
  HdRel (fun a b => rank a <= rank b) q (insert_player localeCompare p l).
Proof.
  intros Hqp Hhead. destruct l as [| r l]; cbn [insert_player].
  - now constructor.
  - destruct (compare_players localeCompare p r <=? 0); constructor;
      [assumption | now inversion Hhead].
Qed.

Lemma insert_player_ranked (p : Player) (l : list Player) :
  ranked l -> ranked (insert_player localeCompare p l).
Proof.
  unfold ranked. induction l as [| q l IH]; intros Hl; cbn [insert_player].
  - repeat constructor.
  - destruct (Z.leb_spec (compare_players localeCompare p q) 0) as [Hle | Hgt].
    + constructor; [assumption |]. constructor. now apply compare_le_rank.
    + inversion Hl as [| ? ? Hsorted Hhead]; subst.
      constructor; [now apply IH |].
      apply insert_player_head; [now apply compare_gt_rank | assumption].
Qed.

Lemma sortPlayersByPosition_permutation (players : list Player) :
  Permutation (sortPlayersByPosition localeCompare players) players.
Proof.
  unfold sortPlayersByPosition.
  induction players as [| p players IH]; cbn [fold_right]; [reflexivity |].
  rewrite insert_player_permutation. now constructor.
Qed.

Lemma sortPlayersByPosition_ranked (players : list Player) :
  ranked (sortPlayersByPosition localeCompare players).
Proof.
  unfold sortPlayersByPosition.
  induction players as [| p players IH]; cbn [fold_right].
  - constructor.
  - now apply insert_player_ranked.
Qed.

End WithCollation.

End SortFacts.

Module SortTheorems.
Import Utils Display Notions TotalFacts CountFacts SortFacts.

(** X9. [sortPlayersByPosition] returns the same players, each as often as
    before, ordered defense, midfield, forward and then every other
    position, whatever the collation of names; sorting a team therefore
    does not change its position counts, nor its total rating when the
    rating magnitudes add up to at most 2^53. *)
Theorem X9_sortPlayersByPosition_rearranges_by_rank :
  forall (localeCompare : string -> string -> Z) (players : list Player),
    let sorted := sortPlayersByPosition localeCompare players in
    Permutation sorted players /\
    ranked sorted /\
    (exact_ratings players ->
     calculateTotalRating sorted = calculateTotalRating players) /\
    countPositions sorted = countPositions players.
Proof.
  intros localeCompare players sorted.
  assert (Hperm : Permutation sorted players)
    by apply sortPlayersByPosition_permutation.
  repeat split.
  - exact Hperm.
  - apply sortPlayersByPosition_ranked.
  - intros _. now apply total_permutation.
  - now apply count_permutation.
Qed.

Lemma X9_sortPlayersByPosition_rearranges_by_rank_witness :
  calculateTotalRating
    (sortPlayersByPosition compare_bytes
                           [Spec.alice; Spec.bob; Spec.charlie; Spec.diana])
  = calculateTotalRating [Spec.alice; Spec.bob; Spec.charlie; Spec.diana].
Proof.
  apply (X9_sortPlayersByPosition_rearranges_by_rank
           compare_bytes [Spec.alice; Spec.bob; Spec.charlie; Spec.diana]).
  unfold exact_ratings, MAX_EXACT. cbn. lia.
Defined.

End SortTheorems.

Module FormatFacts.
Import Utils Display.

Lemma string_length_append (s1 s2 : string) :
  String.length (s1 ++ s2)%string = (String.length s1 + String.length s2)%nat.
Proof. induction s1 as [| c s1 IH]; cbn; [reflexivity | now rewrite IH]. Qed.

Lemma spaces_length (n : nat) : String.length (spaces n) = n.
Proof. induction n as [| n IH]; cbn; [reflexivity | now rewrite IH]. Qed.

Lemma padStart_length (width : nat) (s : string) :
  String.length (padStart width s) = Nat.max width (String.length s).
Proof. unfold padStart. rewrite string_length_append, spaces_length. lia. Qed.

Lemma padEnd_length (width : nat) (s : string) :
  String.length (padEnd width s) = Nat.max width (String.length s).
Proof. unfold padEnd. rewrite string_length_append, spaces_length. lia. Qed.

(** Numbers from 1 to 99 print in at most two characters. *)
Lemma two_digits (n : Z) :
  1 <= n <= 99 -> (String.length (of_Z n) <= 2)%nat.
Proof.
  intros Hn.
  assert (Hall : forallb (fun k => Nat.leb (String.length (of_Z (Z.of_nat k))) 2)
                         (seq 1 99) = true) by (vm_compute; reflexivity).
  rewrite forallb_forall in Hall.
  specialize (Hall (Z.to_nat n)). rewrite Z2Nat.id in Hall by lia.
  apply Nat.leb_le, Hall, in_seq. lia.
Qed.

End FormatFacts.

Module FormatTheorems.
Import Utils Display Notions FormatFacts.

(** X10. The lines of [formatPlayer] line up: for the first 99 players of a
    list, names of at most 20 characters, positions of at most 8 and
    ratings of magnitude at most 2^53, a line is 48 characters of columns
    and then the rating, so the rating starts at the same column on every
    line. *)
Theorem X10_formatPlayer_columns_line_up :
  forall (player : Player) (index : Z),
    0 <= index < 99 ->
    (String.length (Utils.name player) <= 20)%nat ->
    (String.length (position player) <= 8)%nat ->
    exact_integer (rating player) ->
    String.length (formatPlayer_columns player index) = 48%nat /\
    String.length (formatPlayer player index)
    = (48 + String.length (of_Z (rating player)))%nat.
Proof.
  intros player index Hindex Hname Hposition _.
  assert (Hcolumns : String.length (formatPlayer_columns player index) = 48%nat).
  { unfold formatPlayer_columns.
    rewrite !string_length_append, padStart_length, !padEnd_length.
    pose proof (two_digits (index + 1) ltac:(lia)) as Hdigits.
    cbn [String.length]. lia. }
  split; [exact Hcolumns |].
  unfold formatPlayer. now rewrite string_length_append, Hcolumns.
Qed.

Lemma X10_formatPlayer_columns_line_up_witness :
  String.length (formatPlayer_columns Spec.alice 0) = 48%nat.
Proof.
  apply (X10_formatPlayer_columns_line_up Spec.alice 0);
    unfold exact_integer, MAX_EXACT; cbn; lia.
Defined.

End FormatTheorems.

(* ================================================================== *)
(** * Further properties of [src/solver/service.ts] *)

Module TrimIdempotence.
Import TrimFacts Notions.

Lemma all_ws_trimEnd (s : string) : all_ws (trimEnd s) = all_ws s.
Proof.
  induction s as [| c s IH]; [reflexivity |].
  cbn [trimEnd]. destruct (all_ws (String c s)) eqn:Hs; [reflexivity |].
  cbn [all_ws] in *. now rewrite IH.
Qed.

Lemma trimEnd_idempotent (s : string) : trimEnd (trimEnd s) = trimEnd s.
Proof.
  induction s as [| c s IH]; [reflexivity |].
  cbn [trimEnd]. destruct (all_ws (String c s)) eqn:Hs; [reflexivity |].
  cbn [trimEnd].
  assert (Hkeep : all_ws (String c (trimEnd s)) = false)
    by (cbn [all_ws] in *; now rewrite all_ws_trimEnd).
  now rewrite Hkeep, IH.
Qed.

Lemma trimStart_after_trimEnd (s : string) :
  trimStart (trimEnd (trimStart s)) = trimEnd (trimStart s).
Proof.
  destruct (all_ws s) eqn:Hs.
  - rewrite (trimStart_all_ws s Hs). reflexivity.
  - destruct (trimStart_not_all_ws s Hs) as (c & r & -> & Hc).
    cbn [trimEnd all_ws]. rewrite Hc. cbn [andb trimStart]. now rewrite Hc.
Qed.

Lemma trim_idempotent (s : string) : trimmed (trim s).
Proof.
  unfold trimmed, trim. now rewrite trimStart_after_trimEnd, trimEnd_idempotent.
Qed.

End TrimIdempotence.

Module ServiceFacts.
Import Js Service Spec Notions.

Lemma init_invocations_after_init (s s' : MiniZincService) (cs : list Event)
      (o : InitOptions) (c c' : nat) :
  init_invocations (mkWorld s' (cs ++ [CalledInit o]) c')
  = S (init_invocations (mkWorld s cs c)).
Proof.
  unfold init_invocations; cbn [calls].
  rewrite filter_app, length_app. cbn. lia.
Qed.

Lemma init_invocations_after_solve (s s' : MiniZincService) (cs : list Event)
      (r : SolveRequest) (c c' : nat) :
  init_invocations (mkWorld s' (cs ++ [CalledSolve r]) c')
  = init_invocations (mkWorld s cs c).
Proof.
  unfold init_invocations; cbn [calls].
  rewrite filter_app, length_app. cbn. lia.
Qed.

(** What [init] does to a service that is not initialised yet. *)
Lemma init_first_call (H : Host) (config : option MiniZincInitConfig) (w : World) :
  initialized (this w) = false ->
  init H config w =
  match MiniZinc_init H (init_options H (mode (this w)) config) with
  | Some e =>
      (inl e,
       mkWorld (this w)
               (calls w ++ [CalledInit (init_options H (mode (this w)) config)])
               (clock w))
  | None =>
      (inr tt,
       mkWorld (mkService (mode (this w)) true)
               (calls w ++ [CalledInit (init_options H (mode (this w)) config)])
               (clock w))
  end.
Proof.
  destruct w as [[m ini] cs ck]. cbn [this mode initialized calls clock]. intros ->.
  cbv [init call_init bind read_this ret throw record set_initialized].
  cbn [this mode initialized calls clock].
  destruct m; cbn [init_options];
    destruct (MiniZinc_init H _); reflexivity.
Qed.

Lemma init_when_initialized (H : Host) (config : option MiniZincInitConfig) (w : World) :
  initialized (this w) = true -> init H config w = (inr tt, w).
Proof.
  destruct w as [[m ini] cs ck]. cbn [this initialized]. intros ->. reflexivity.
Qed.

End ServiceFacts.

Module InitTheorems.
Import Js Service Spec Notions ServiceFacts.

(** X11. [init] is idempotent: when the service is initialised already, or
    the engine's [init] succeeds, a second [init] (with any configuration)
    changes nothing and calls nothing; the service ends initialised and the
    engine's [init] has been called at most once. *)
Theorem X11_init_idempotent :
  forall (H : Host) (config config' : option MiniZincInitConfig) (w : World),
    initialized (this w) = true \/
    MiniZinc_init H (init_options H (mode (this w)) config) = None ->
    bind (init H config) (fun _ => init H config') w = init H config w /\
    fst (init H config w) = inr tt /\
    initialized (this (snd (init H config w))) = true /\
    init_invocations (snd (init H config w))
    = (if initialized (this w) then init_invocations w
       else S (init_invocations w)).
Proof.
  intros H config config' w Hok. unfold bind.
  destruct (initialized (this w)) eqn:Hini.
  - rewrite (init_when_initialized H config w Hini).
    rewrite (init_when_initialized H config' w Hini). now repeat split.
  - destruct Hok as [Hok | Hok]; [discriminate |].
    rewrite (init_first_call H config w Hini), Hok.
    rewrite init_when_initialized by reflexivity.
    repeat split. destruct w. apply init_invocations_after_init.
Qed.

Lemma X11_init_idempotent_witness :
  bind (init node_host None) (fun _ => init node_host None) (fresh_world node_host)
  = init node_host None (fresh_world node_host).
Proof.
  apply (X11_init_idempotent node_host None None (fresh_world node_host)).
  right; reflexivity.
Defined.

(** X12. When the engine's [init] fails on a service that is not
    initialised, [init] rejects with the engine's error after that one
    call, the service stays uninitialised and keeps its mode, no solve is
    attempted, and the next [init] calls the engine again. *)
Theorem X12_init_failure_can_be_retried :
  forall (H : Host) (config config' : option MiniZincInitConfig) (w : World)
         (e : thrown),
    initialized (this w) = false ->
    MiniZinc_init H (init_options H (mode (this w)) config) = Some e ->
    let w' := snd (init H config w) in
    fst (init H config w) = inl e /\
    this w' = this w /\
    init_invocations w' = S (init_invocations w) /\
    solve_invocations w' = solve_invocations w /\
    init_invocations (snd (init H config' w')) = S (S (init_invocations w)).
Proof.
  intros H config config' w e Hini Hfail w'. subst w'.
  rewrite (init_first_call H config w Hini), Hfail. cbn [fst snd].
  destruct w as [s cs ck]. cbn [this calls clock] in *.
  repeat split.
  - apply init_invocations_after_init.
  - apply SolveFacts.invocations_after_init.
  - rewrite init_first_call by (cbn [this]; assumption).
    cbn [this calls clock].
    destruct (MiniZinc_init H (init_options H (mode s) config')); cbn [snd];
      rewrite (init_invocations_after_init s _ (cs ++ _) _ ck);
      f_equal; apply init_invocations_after_init.
Qed.

Lemma X12_init_failure_can_be_retried_witness :
  fst (init (failing_init_host (ErrorObject "spawn minizinc ENOENT")) None
            (fresh_world (failing_init_host (ErrorObject "spawn minizinc ENOENT"))))
  = inl (ErrorObject "spawn minizinc ENOENT").
Proof.
  apply (X12_init_failure_can_be_retried
           (failing_init_host (ErrorObject "spawn minizinc ENOENT")) None None
           (fresh_world (failing_init_host (ErrorObject "spawn minizinc ENOENT")))
           (ErrorObject "spawn minizinc ENOENT"));
    reflexivity.
Defined.

End InitTheorems.

Module SolveLifecycle.
Import Js Service Spec Notions ServiceFacts SolveFacts.

(** What [solve] leaves behind, by cases on the service and on the
    engine: at most one call of each kind is added, last of all the solve
    request, and an initialised service stays so. *)
Lemma solve_effects (H : Host) (w : World) (modelCode : string)
      (data : Utils.ModelData) (config : SolverConfig) (modelFilename : string) :
  let w' := snd (solve H modelCode data config modelFilename w) in
  mode (this w') = mode (this w) /\
  (initialized (this w) = true ->
   initialized (this w') = true /\ init_invocations w' = init_invocations w) /\
  (init_invocations w' <= S (init_invocations w))%nat /\
  (solve_requests w' = solve_requests w \/
   solve_requests w'
   = solve_requests w ++ [request_of modelCode data config modelFilename]).
Proof.
  destruct w as [[m ini] cs ck].
  cbv [solve init call_init call_solve of_outcome now try_catch bind read_this
       ret throw record set_initialized isSolverAvailable].
  cbn [this mode initialized calls clock negb andb].
  unfold init_invocations, solve_requests, request_of.
  destruct ini, m; cbn [negb andb field_or Utils.or_default is_empty];
    repeat match goal with
           | |- context [MiniZinc_init H ?o] => destruct (MiniZinc_init H o)
           | |- context [includes wasmSolvers ?s] => destruct (includes wasmSolvers s)
           | |- context [Model_solve H ?r] => destruct (Model_solve H r)
           | |- context [error_message H ?e] => destruct (error_message H e)
           end;
    cbn [snd this mode initialized calls clock negb andb];
    rewrite ?flat_map_app, ?filter_app, ?length_app; cbn [flat_map filter List.length app];
    rewrite ?app_nil_r;
    repeat split; try discriminate; try lia; auto.
Qed.

(** In the browser a solver outside the list ends [solve] before any
    solve call. *)
Lemma browser_rejection_calls_nothing (H : Host) (w : World) (modelCode : string)
      (data : Utils.ModelData) (config : SolverConfig) (modelFilename : string) :
  mode (this w) = browser ->
  includes wasmSolvers (solver config) = false ->
  solve_invocations (snd (solve H modelCode data config modelFilename w))
  = solve_invocations w.
Proof.
  destruct w as [[m ini] cs ck]. cbn [this mode]. intros -> Hsolver.
  cbv [solve init call_init bind read_this ret throw record set_initialized
       isSolverAvailable].
  cbn [this mode initialized calls clock negb andb].
  destruct ini; cbn [negb].
  - now rewrite Hsolver.
  - cbn [field_or Utils.or_default is_empty].
    destruct (MiniZinc_init H _); cbn [this mode initialized calls clock negb andb];
      rewrite ?Hsolver; cbn [negb andb snd]; apply invocations_after_init.
Qed.

End SolveLifecycle.

Module SolveLifecycleTheorems.
Import Js Service Spec Notions ServiceFacts SolveFacts SolveLifecycle.

(** X13. One call of [solve] never retries and never switches context: it
    asks the engine to solve at most once and to initialise at most once,
    keeps the mode, and leaves an initialised service initialised without
    calling the engine's [init] again, whether the engine answers, throws
    or is never reached. *)
Theorem X13_solve_calls_engine_at_most_once :
  forall (H : Host) (w : World) (modelCode : string) (data : Utils.ModelData)
         (config : SolverConfig) (modelFilename : string),
    let w' := snd (solve H modelCode data config modelFilename w) in
    (solve_invocations w' <= S (solve_invocations w))%nat /\
    (init_invocations w' <= S (init_invocations w))%nat /\
    mode (this w') = mode (this w) /\
    (initialized (this w) = true ->
     initialized (this w') = true /\ init_invocations w' = init_invocations w).
Proof.
  intros H w modelCode data config modelFilename w'.
  destruct (solve_effects H w modelCode data config modelFilename)
    as (Hmode & Hinit & Hcount & Hreq).
  fold w' in Hmode, Hinit, Hcount, Hreq.
  repeat split; try assumption; try (now apply Hinit).
  assert (Hlen : forall v, solve_invocations v = List.length (solve_requests v)).
  { intros v. unfold solve_invocations, solve_requests.
    induction (calls v) as [| [o | r] cs IH]; cbn; lia. }
  rewrite !Hlen. destruct Hreq as [-> | ->]; rewrite ?length_app; cbn; lia.
Qed.

(** X14. The request [solve] hands to the engine carries the model, the
    file name, the data and the solver id as given, always asks for
    statistics, and never carries a zero time limit: a missing or zero
    [timeLimit] becomes 10000 and any other value is passed on. *)
Theorem X14_solve_request_options :
  forall (H : Host) (w : World) (modelCode : string) (data : Utils.ModelData)
         (config : SolverConfig) (modelFilename : string) (r : SolveRequest),
    In r (solve_requests (snd (solve H modelCode data config modelFilename w))) ->
    In r (solve_requests w) \/
    (req_model r = modelCode /\ req_filename r = modelFilename /\
     req_data r = data /\
     opt_solver (req_options r) = solver config /\
     opt_statistics (req_options r) = true /\
     opt_all_solutions (req_options r) = bool_or_false (allSolutions config) /\
     opt_time_limit (req_options r) <> 0 /\
     opt_time_limit (req_options r)
     = match timeLimit config with
       | Some 0 | None => 10000
       | Some t => t
       end).
Proof.
  intros H w modelCode data config modelFilename r Hin.
  destruct (solve_effects H w modelCode data config modelFilename)
    as (_ & _ & _ & [Hreq | Hreq]); rewrite Hreq in Hin; [now left |].
  apply in_app_or in Hin as [Hin | [<- | []]]; [now left | right].
  unfold request_of, num_or; cbn [req_model req_filename req_data req_options
                                  opt_solver opt_statistics opt_all_solutions
                                  opt_time_limit].
  repeat split.
  - destruct (timeLimit config) as [t |]; [| discriminate].
    destruct (Z.eqb_spec t 0); [discriminate | assumption].
  - destruct (timeLimit config) as [[| t | t] |]; reflexivity.
Qed.

Lemma X14_solve_request_options_witness :
  opt_time_limit
    (req_options (request_of model_code roster_data
                             (mkSolverConfig "cbc" (Some 0) None) "model.mzn"))
  = 10000.
Proof.
  destruct (X14_solve_request_options
              node_host (fresh_world node_host) model_code roster_data
              (mkSolverConfig "cbc" (Some 0) None) "model.mzn"
              (request_of model_code roster_data
                          (mkSolverConfig "cbc" (Some 0) None) "model.mzn"))
    as [Hold | (_ & _ & _ & _ & _ & _ & _ & Hlimit)].
  - vm_compute. now left.
  - destruct Hold.
  - exact Hlimit.
Defined.

(** X15. In the browser the list a user is shown and the check [solve]
    applies agree: once initialisation succeeds, the engine is asked to
    solve exactly when the requested solver is one of those
    [getAvailableSolvers] lists. *)
Theorem X15_browser_solves_exactly_listed_solvers :
  forall (H : Host) (w : World) (modelCode : string) (data : Utils.ModelData)
         (config : SolverConfig) (modelFilename : string),
    mode (this w) = browser ->
    init_succeeds H w ->
    (solve_invocations (snd (solve H modelCode data config modelFilename w))
     = S (solve_invocations w)
     <-> includes (getAvailableSolvers H (this w)) (solver config) = true).
Proof.
  intros H w modelCode data config modelFilename Hmode Hinit.
  assert (Hlist : includes (getAvailableSolvers H (this w)) (solver config)
                  = includes wasmSolvers (solver config))
    by (unfold getAvailableSolvers; now rewrite Hmode).
  rewrite Hlist.
  destruct (includes wasmSolvers (solver config)) eqn:Hsolver.
  - split; [reflexivity | intros _].
    destruct (solve_reaches_engine H w modelCode data config modelFilename Hinit)
      as (cs & c & Hsame & Hrun); [now intros _ |].
    cbv zeta in Hsame, Hrun. rewrite Hrun, <- Hsame.
    destruct (Model_solve H _); cbn [snd]; apply invocations_after_solve.
  - split; [| discriminate]. intros Hcalled. exfalso.
    rewrite (browser_rejection_calls_nothing H w modelCode data config modelFilename
               Hmode Hsolver) in Hcalled.
    lia.
Qed.

End SolveLifecycleTheorems.

Module ServiceMoreTheorems.
Import Js Service Spec Notions JsFacts NormalizerFacts TrimIdempotence SolveFacts.
Local Open Scope js_scope.

Lemma X15_browser_solves_exactly_listed_solvers_witness :
  solve_invocations
    (snd (solve browser_host model_code roster_data (config_for "gecode") "model.mzn"
                (fresh_world browser_host)))
  = 1%nat.
Proof.
  apply (SolveLifecycleTheorems.X15_browser_solves_exactly_listed_solvers
           browser_host (fresh_world browser_host) model_code roster_data
           (config_for "gecode") "model.mzn").
  - reflexivity.
  - right; reflexivity.
  - reflexivity.
Defined.

(** X16. [getAvailableSolvers] never lists an empty name or a name with
    white space around it, in either mode and whatever
    MINIZINC_AVAILABLE_SOLVERS holds. *)
Theorem X16_available_solver_names_are_clean :
  forall (H : Host) (s : MiniZincService) (x : string),
    In x (getAvailableSolvers H s) ->
    x <> EmptyString /\ trimmed x.
Proof.
  intros H s x. unfold getAvailableSolvers.
  assert (Hfixed : forall l : list string,
             forallb (fun y => negb (is_empty y) && String.eqb (trim y) y) l = true ->
             In x l -> x <> EmptyString /\ trimmed x).
  { intros l Hall Hin. rewrite forallb_forall in Hall.
    apply Hall, andb_prop in Hin as [Hne Htrim].
    split; [now intros -> | now apply String.eqb_eq]. }
  destruct (mode s); [now apply Hfixed |].
  destruct (env_MINIZINC_AVAILABLE_SOLVERS H) as [envList |]; [| now apply Hfixed].
  destruct (_ && _); [| now apply Hfixed].
  unfold split_solver_list. intros Hin.
  apply filter_In in Hin as [Hin Hne].
  apply in_map_iff in Hin as (y & <- & _).
  split; [| apply trim_idempotent].
  intros Heq. now rewrite Heq in Hne.
Qed.

Lemma X16_available_solver_names_are_clean_witness :
  getAvailableSolvers (stub_host false (Some " cbc , ,gecode ") (resolving JNull))
                      (constructor node_host)
  = ["cbc"; "gecode"] /\
  trimmed "gecode".
Proof.
  split; [vm_compute; reflexivity |].
  apply (X16_available_solver_names_are_clean
           (stub_host false (Some " cbc , ,gecode ") (resolving JNull))
           (constructor node_host) "gecode").
  vm_compute. right; now left.
Defined.

(** X17. Whatever the engine answers, the normalised result has a truthy
    status, a solution that is truthy or [null], statistics that are truthy
    or [null], the measured time, and no error message: a caller's test
    [if (result.solution)] is the test [result.solution !== null]. *)
Theorem X17_normalize_fields_present :
  forall (H : Host) (raw : value) (t : Z),
    let r := normalize H raw t in
    truthy (status r) = true /\
    (truthy (solution r) = true \/ solution r = JNull) /\
    (truthy (statistics r) = true \/ statistics r = JNull) /\
    solveTime r = t /\
    errorMessage r = None.
Proof.
  intros H raw t r. unfold r, normalize; cbn [status solution statistics solveTime errorMessage].
  repeat split.
  - apply extract_status_truthy.
  - destruct (truthy (extract_solution (parsed_output H raw) raw)) eqn:Hs;
      [now left | right; now apply extract_solution_null].
  - destruct (truthy (extract_statistics (parsed_output H raw) raw)) eqn:Hs;
      [now left | right; now apply extract_statistics_null].
Qed.



(** X19. The JSON block printed by the model wins: when the output text
    parses to a value with a truthy status, solution and statistics, the
    result carries exactly these three, whatever the rest of the response
    holds. *)
Theorem X19_parsed_json_block_wins :
  forall (H : Host) (raw : value) (t : Z),
    let parsed := parsed_output H raw in
    truthy (parsed @? "status") = true ->
    truthy (parsed @? "solution") = true ->
    truthy (parsed @? "statistics") = true ->
    normalize H raw t
    = mkSolverResult (parsed @? "status") (parsed @? "solution")
                     (parsed @? "statistics") t None.
Proof.
  intros H raw t parsed Hstatus Hsolution Hstatistics.
  unfold normalize. fold parsed.
  unfold extract_status, extract_solution, extract_statistics.
  now rewrite !or_truthy by (rewrite ?truthy_or, ?Hstatus, ?Hsolution, ?Hstatistics;
                             reflexivity).
Qed.

Lemma X19_parsed_json_block_wins_witness :
  normalize json_host response_with_json_block 3
  = mkSolverResult (JStr "SATISFIED")
                   (JObj [("assignment", JArr [JNum 0; JNum 1])])
                   (JObj [("nodes", JNum 7)]) 3 None.
Proof.
  apply (X19_parsed_json_block_wins json_host response_with_json_block 3);
    reflexivity.
Defined.

End ServiceMoreTheorems.

(* ================================================================== *)
(** * Properties of [src/cli/commands.ts] *)

Module CliFacts.
Import Cli Notions.

(** The invariant of the loop of [parseArgs] over the arguments [all]. *)
Lemma parseArgs_from_keeps (all : list string) :
  forall (n : nat) (rest : list string) (i : Z) (options : CLIOptions),
    (List.length rest <= n)%nat ->
    incl rest all ->
    0 <= i ->
    (i = 0 -> rest = all) ->
    drawn_from all options ->
    drawn_from all (parseArgs_from i rest options).
Proof.
  induction n as [| n IH]; intros rest i options Hlen Hincl Hi Hfirst Hinv.
  - destruct rest; [assumption | cbn in Hlen; lia].
  - destruct rest as [| arg rest']; [assumption |].
    cbn [List.length] in Hlen.
    assert (Harg : In arg all) by (apply Hincl; now left).
    assert (Hrest' : incl rest' all) by (intros x Hx; apply Hincl; now right).
    assert (Hnext : forall o, drawn_from all o ->
                              drawn_from all (parseArgs_from (i + 1) rest' o))
      by (intros o Ho; apply IH; try assumption; lia).
    assert (Hskip : forall nextArg rest'' o,
               rest' = nextArg :: rest'' -> drawn_from all o ->
               drawn_from all (parseArgs_from (i + 2) rest'' o)).
    { intros nextArg rest'' o -> Ho. apply IH; try assumption; try lia.
      - cbn [List.length] in Hlen. lia.
      - intros x Hx. apply Hrest'. now right. }
    destruct Hinv as (Hsolver & Hscenario & Hfile & Hsce & Hfil & Hhelp & Hempty).
    cbn [parseArgs_from].
    destruct (String.eqb arg "--solver" || String.eqb arg "-s").
    { destruct rest' as [| nextArg rest'']; [now apply Hnext |].
      destruct (is_empty nextArg) eqn:Hne; cbn [negb]; [now apply Hnext |].
      apply (Hskip nextArg rest''); [reflexivity |].
      repeat split; cbn [solver scenario file help]; try assumption.
      - right. apply Hrest'. now left.
      - intros Heq. now rewrite Heq in Hne. }
    destruct (String.eqb arg "--scenario" || String.eqb arg "-c").
    { destruct rest' as [| nextArg rest'']; [now apply Hnext |].
      destruct (is_empty nextArg) eqn:Hne; cbn [negb]; [now apply Hnext |].
      apply (Hskip nextArg rest''); [reflexivity |].
      repeat split; cbn [solver scenario file help]; try assumption.
      - right. apply Hrest'. now left.
      - intros Heq. now rewrite Heq in Hne. }
    destruct (String.eqb arg "--file" || String.eqb arg "-f").
    { destruct rest' as [| nextArg rest'']; [now apply Hnext |].
      destruct (is_empty nextArg) eqn:Hne; cbn [negb]; [now apply Hnext |].
      apply (Hskip nextArg rest''); [reflexivity |].
      repeat split; cbn [solver scenario file help]; try assumption.
      - right. apply Hrest'. now left.
      - intros Heq. now rewrite Heq in Hne. }
    destruct (String.eqb arg "--help" || String.eqb arg "-h") eqn:Hflag.
    { apply Hnext. repeat split; cbn [solver scenario file help]; try assumption.
      intros _. apply orb_prop in Hflag as [Hflag | Hflag];
        apply String.eqb_eq in Hflag; subst arg; [now left | now right]. }
    destruct (negb (startsWith_dash arg) && (i =? 0)) eqn:Hlegacy;
      [| now apply Hnext].
    apply andb_prop in Hlegacy as [_ Hzero]. apply Z.eqb_eq in Hzero.
    apply Hnext. repeat split; cbn [solver scenario file help]; try assumption.
    + now right.
    + intros ->. rewrite <- (Hfirst Hzero). reflexivity.
Qed.

End CliFacts.

Module CliTheorems.
Import Cli Notions CliFacts.

(** X20. [parseArgs] only ever hands back what it was given: each of
    solver, scenario and file is its default or one of the arguments; the
    scenario and the file are never empty, and the solver is empty only
    when the first argument is the empty string; help is set only when
    [--help] or [-h] is among the arguments. *)
Theorem X20_parseArgs_values_come_from_arguments :
  forall args : list string,
    let options := parseArgs args in
    In (solver options) (Constants.DEFAULT_SOLVER :: args) /\
    In (scenario options) (DEFAULT_SCENARIO :: args) /\
    In (file options) ("data/test-players.csv" :: args) /\
    scenario options <> EmptyString /\
    file options <> EmptyString /\
    (help options = true -> In "--help" args \/ In "-h" args) /\
    (solver options = EmptyString -> hd_error args = Some EmptyString).
Proof.
  intros args options.
  apply (parseArgs_from_keeps args (List.length args) args 0 default_options);
    try lia; try reflexivity.
  - apply incl_refl.
  - repeat split; cbn; try (now left); try discriminate.
Qed.

End CliTheorems.

Module SortOrderTheorems.
Import Utils Display Notions SortFacts.

Section WithCollation.
Variable localeCompare : string -> string -> Z.

(** The comparator inherits the collation's totality. *)
Lemma compare_players_total :
  collation_total localeCompare ->
  forall p q : Player,
    0 < compare_players localeCompare p q ->
    compare_players localeCompare q p <= 0.
Proof.
  intros Htotal p q. unfold compare_players.
  rewrite (Z.eqb_sym (sortOrder_of (position q))).
  destruct (Z.eqb_spec (sortOrder_of (position p)) (sortOrder_of (position q)))
    as [_ | Hne]; cbn [negb]; [apply Htotal | lia].
Qed.

Lemma insert_player_in_order (p : Player) (l : list Player) :
  collation_total localeCompare ->
  in_comparator_order localeCompare l ->
  in_comparator_order localeCompare (insert_player localeCompare p l).
Proof.
  intros Htotal. unfold in_comparator_order.
  induction l as [| q l IH]; intros Hl; cbn [insert_player].
  - repeat constructor.
  - destruct (Z.leb_spec (compare_players localeCompare p q) 0) as [Hle | Hgt].
    + constructor; [assumption | now constructor].
    + inversion Hl as [| ? ? Hsorted Hhead]; subst.
      constructor; [now apply IH |].
      destruct l as [| r l]; cbn [insert_player].
      * constructor. now apply compare_players_total.
      * destruct (compare_players localeCompare p r <=? 0); constructor;
          [now apply compare_players_total | now inversion Hhead].
Qed.

End WithCollation.

Lemma compare_bytes_total : collation_total compare_bytes.
Proof.
  intros a b. unfold compare_bytes.
  rewrite (String.compare_antisym b a).
  destruct (String.compare a b); cbn; lia.
Qed.

(** X21. When the collation of names is total (it never puts each of two
    names after the other), the sorted list is in comparator order: every
    player is followed by one of a later position or, within the same
    position, by a name that does not collate before. *)
Theorem X21_sortPlayersByPosition_in_comparator_order :
  forall (localeCompare : string -> string -> Z) (players : list Player),
    collation_total localeCompare ->
    in_comparator_order localeCompare (sortPlayersByPosition localeCompare players).
Proof.
  intros localeCompare players Htotal. unfold sortPlayersByPosition.
  induction players as [| p players IH]; cbn [fold_right].
  - constructor.
  - now apply insert_player_in_order.
Qed.

Lemma X21_sortPlayersByPosition_in_comparator_order_witness :
  sortPlayersByPosition compare_bytes [Spec.alice; Spec.bob; Spec.charlie; Spec.diana]
  = [Spec.bob; Spec.charlie; Spec.alice; Spec.diana] /\
  in_comparator_order compare_bytes
    (sortPlayersByPosition compare_bytes [Spec.alice; Spec.bob; Spec.charlie; Spec.diana]).
Proof.
  split; [vm_compute; reflexivity |].
  apply (X21_sortPlayersByPosition_in_comparator_order compare_bytes).
  exact compare_bytes_total.
Defined.

End SortOrderTheorems.
